(** * Corner-frequency pickers of gmprocess ([gmprocess/corner_frequencies.py])

    A shallow embedding of [constant], [snr] and [fft_smooth], and of the
    parts of Python, numpy and obspy they rely on, followed by the properties
    the specification states about them. *)

From Stdlib Require Import ZArith QArith Qcanon Floats Lia.
From stdpp Require Import base option list gmap strings pretty sorting.

Set Warnings "-inexact-float".
Local Open Scope string_scope.
Local Open Scope list_scope.

(** ** Python exceptions and the error monad *)

Inductive exn : Type :=
| KeyError (key : string)
| IndexError
| ValueError
| ZeroDivisionError.

Inductive result (T : Type) : Type :=
| Ok (x : T)
| Raise (e : exn).
Arguments Ok {T} x.
Arguments Raise {T} e.

#[global] Instance result_ret : MRet result := fun _ x => Ok x.
#[global] Instance result_bind : MBind result :=
  fun _ _ f m => match m with Ok x => f x | Raise e => Raise e end.

Definition returns {T} (m : result T) : Prop := ∃ x, m = Ok x.

(** ** Numbers

    The code computes on numpy [float64] values.  The embedding is written
    once over the operations it uses, and instantiated with IEEE-754 binary64
    (the kernel's primitive floats) and, for statements about the exact
    values rounding approximates, with the rationals. *)

Class Arith (A : Type) : Type := {
  of_int : Z → A;            (* float(i) *)
  lit : Q → A;               (* a literal, from its decimal fraction *)
  fsub : A → A → A;
  fmul : A → A → A;
  fdiv : A → A → A;          (* numpy division: never raises *)
  feq : A → A → bool;
  fle : A → A → bool;
  flt : A → A → bool;
}.

(** [float(i)] for an integer below 2^63 in magnitude: the nearest binary64. *)
Definition Z2float (z : Z) : float :=
  if (z <? 0)%Z then PrimFloat.opp (PrimFloat.of_uint63 (Uint63.of_Z (- z)))
  else PrimFloat.of_uint63 (Uint63.of_Z z).

#[global] Instance float64 : Arith float := {|
  of_int := Z2float;
  lit q := PrimFloat.div (Z2float (Qnum q)) (Z2float (Zpos (Qden q)));
  fsub := PrimFloat.sub;
  fmul := PrimFloat.mul;
  fdiv := PrimFloat.div;
  feq := PrimFloat.eqb;
  fle := PrimFloat.leb;
  flt := PrimFloat.ltb;
|}.

#[global] Instance exact : Arith Qc := {|
  of_int z := Q2Qc (inject_Z z);
  lit := Q2Qc;
  fsub := Qcminus;
  fmul := Qcmult;
  fdiv := Qcdiv;
  feq x y := bool_decide (x = y);
  fle x y := bool_decide (x ≤ y)%Qc;
  flt x y := bool_decide (x < y)%Qc;
|}.

(** ** Python built-ins *)

(** [d[key]] on a dict. *)
Definition getitem {V} (d : gmap string V) (key : string) : result V :=
  match d !! key with
  | Some v => Ok v
  | None => Raise (KeyError key)
  end.

(** [a[idx]] on an array, for an index that is not negative. *)
Definition index {T} (a : list T) (idx : nat) : result T :=
  match a !! idx with
  | Some v => Ok v
  | None => Raise IndexError
  end.

(** [list.remove(x)]: deletes the first member that is [x], and raises when
    there is none.  obspy's [Stream.remove(trace)] is this call on
    [st.traces]; the members are references, compared as such. *)
Fixpoint list_remove {T} `{EqDecision T} (x : T) (l : list T) : result (list T) :=
  match l with
  | [] => Raise ValueError
  | y :: l' => if decide (y = x) then Ok l' else (l'' ← list_remove x l'; Ok (y :: l''))
  end.

Section Numeric.
Context {A : Type} {HA : Arith A}.

(** [x / y] on Python floats raises when the divisor is zero. *)
Definition pydiv (x y : A) : result A :=
  if feq y (of_int 0) then Raise ZeroDivisionError else Ok (fdiv x y).

(** [max(a)]: the running maximum is replaced by a member that is greater. *)
Definition pymax (a : list A) : result A :=
  match a with
  | [] => Raise ValueError
  | x :: a' => Ok (fold_left (fun m y => if flt m y then y else m) a' x)
  end.

(** [a -= b] on two arrays; arrays of different lengths cannot be
    subtracted in place. *)
Definition isub (a b : list A) : result (list A) :=
  if decide (length a = length b) then Ok (zip_with fsub a b) else Raise ValueError.
End Numeric.

(** obspy [next_pow_2], at its contract: 2 to the power ceil(log2 i), in
    exact arithmetic (the library rounds the logarithm, which is left out
    here); the logarithm of a number that is not positive is a math domain
    error. *)
Definition next_pow_2 (i : Z) : result Z :=
  if (i <=? 0)%Z then Raise ValueError else Ok (2 ^ Z.log2_up i)%Z.

(** numpy [rfftfreq]: [arange(0, n//2 + 1) * (1.0 / (n * d))]. *)
Definition rfftfreq {A : Type} {HA : Arith A} (n : Z) (d : A) : result (list A) :=
  val ← pydiv (of_int 1) (fmul (of_int n) d);
  Ok ((fun k : nat => fmul (of_int (Z.of_nat k)) val) <$> seq 0 (Z.to_nat (n / 2 + 1))).

(** ** The corner scan of [snr] (the part of the loop body that follows the
    spectra), on the de-noised signal spectrum [sig], the noise spectrum
    [noise] and their frequency grid [freqs]. *)

Section Scan.
Context {A : Type} {HA : Arith A}.

(** The variables of the threshold walk. *)
Record walk_state : Type := WalkState {
  lows : list A;
  highs : list A;
  have_low : bool;
}.

Definition walk_init : walk_state := WalkState [] [] false.

(** One turn of [for idx, freq in enumerate(freqs_signal)]. *)
Definition walk_step (sig noise : list A) (threshold : A)
    (s : walk_state) (idx : nat) (freq : A) : result walk_state :=
  x ← index sig idx;
  y ← index noise idx;
  if have_low s then
    if flt (fdiv x y) threshold
    then Ok (WalkState (lows s) (highs s ++ [freq]) false)
    else Ok s
  else
    if fle threshold (fdiv x y)
    then Ok (WalkState (lows s ++ [freq]) (highs s) true)
    else Ok s.

Fixpoint walk (sig noise : list A) (threshold : A)
    (idx : nat) (freqs : list A) (s : walk_state) : result walk_state :=
  match freqs with
  | [] => Ok s
  | freq :: freqs' =>
      s' ← walk_step sig noise threshold s idx freq;
      walk sig noise threshold (S idx) freqs' s'
  end.

(** [if len(lows) > len(highs): highs.append(max(freqs_signal))] *)
Definition close_band (freqs lows highs : list A) : result (list A) :=
  if decide (length highs < length lows)%nat
  then m ← pymax freqs; Ok (highs ++ [m])
  else Ok highs.

(** The test of one candidate pair; [highs[idx]] is read only when the
    low corner is accepted. *)
Definition pair_valid (max_low_freq min_high_freq : A) (highs : list A)
    (idx : nat) (val : A) : result (option (A * A)) :=
  if fle val max_low_freq then
    h ← index highs idx;
    if flt min_high_freq h then Ok (Some (val, h)) else Ok None
  else Ok None.

(** [found_valid = False; for idx, val in enumerate(lows): ...].  The
    corner variables are read only when [found_valid] is set, so the pair
    and the flag travel together as an option. *)
Fixpoint check_pairs (max_low_freq min_high_freq : A) (highs : list A)
    (idx : nat) (lows : list A) (found : option (A * A)) : result (option (A * A)) :=
  match lows with
  | [] => Ok found
  | val :: lows' =>
      r ← pair_valid max_low_freq min_high_freq highs idx val;
      check_pairs max_low_freq min_high_freq highs (S idx) lows'
        (match r with Some p => Some p | None => found end)
  end.

(** The scan; [None] stands for the two places where the trace is
    removed.  The closing of the band and the validity loop are written
    twice in the source. *)
Definition corner_scan (freqs sig noise : list A)
    (threshold max_low_freq min_high_freq : A) : result (option (A * A)) :=
  s ← walk sig noise threshold 0 freqs walk_init;
  match lows s with
  | [] => Ok None
  | _ :: _ =>
      highs1 ← close_band freqs (lows s) (highs s);
      _ ← check_pairs max_low_freq min_high_freq highs1 0 (lows s) None;
      highs2 ← close_band freqs (lows s) highs1;
      check_pairs max_low_freq min_high_freq highs2 0 (lows s) None
  end.
End Scan.
Arguments walk_state A : clear implicits.

(** ** Records, collections and the world they live in *)

(** The values the processing parameters hold here: strings, numbers and
    times (a [UTCDateTime], in nanoseconds). *)
Inductive pyval (A : Type) : Type :=
| PStr (s : string)
| PNum (x : A)
| PTime (ns : Z).
Arguments PStr {A} s.
Arguments PNum {A} x.
Arguments PTime {A} ns.

(** Modelled from the spec: the trace class of the repository is not among the
    sources.  A record is one channel's samples and its metadata: sampling
    rate, number of samples, start time, and the processing-parameters map,
    keyed by stage name, each stage holding a dict of its own. *)
Record Stats (A : Type) : Type := mkStats {
  sampling_rate : A;
  npts : Z;
  starttime : Z;
  processing_parameters : gmap string (gmap string (pyval A));
}.
Arguments mkStats {A}.
Arguments sampling_rate {A}.
Arguments npts {A}.
Arguments starttime {A}.
Arguments processing_parameters {A}.

Record Trace (A : Type) : Type := mkTrace {
  data : list A;
  stats : Stats A;
}.
Arguments mkTrace {A}.
Arguments data {A}.
Arguments stats {A}.

#[global] Instance Trace_inhabited {A : Type} {HA : Arith A} : Inhabited (Trace A) :=
  populate (mkTrace [] (mkStats (of_int 0) 0 0 ∅)).

(** Objects are named by references; a stream holds references, so that one
    trace object can be reached from several places. *)
Definition ref : Type := nat.

Record LogRecord : Type := mkLog {
  levelname : string;
  msg : string;
}.

Record State (A : Type) : Type := mkState {
  heap : gmap ref (Trace A);     (* the trace objects *)
  traces : list ref;             (* [st.traces] *)
  log : list LogRecord;          (* what the logging module has received *)
}.
Arguments mkState {A}.
Arguments heap {A}.
Arguments traces {A}.
Arguments log {A}.

(** The calls into obspy and numpy whose results the pickers only pass on. *)
Class SignalLib (A : Type) : Type := {
  (* [tr.copy().trim(starttime=.., endtime=..)] *)
  trim : Trace A → option (pyval A) → option (pyval A) → Trace A;
  (* [tr.taper(max_percentage=.., type=.., side=..)] *)
  taper : Trace A → A → string → string → Trace A;
  (* [abs(np.fft.rfft(data, n=nfft))] *)
  rfft_abs : list A → Z → list A;
  (* [konno_ohmachi_smoothing(spectra, frequencies, bandwidth)] *)
  konno_ohmachi_smoothing : list A → list A → A → list A;
  (* [str(tr)] *)
  trace_str : Trace A → string;
}.

(** What the pickers need from them: the spectrum of a real transform of
    [nfft] points has [nfft // 2 + 1] bins, and smoothing keeps the length. *)
Class SignalLibSpec (A : Type) {L : SignalLib A} : Prop := {
  rfft_abs_length : ∀ d nfft, length (rfft_abs d nfft) = Z.to_nat (nfft / 2 + 1);
  konno_ohmachi_smoothing_length :
    ∀ spec freqs b, length (konno_ohmachi_smoothing spec freqs b) = length spec;
}.

Section Pickers.
Context {A : Type} {HA : Arith A} {L : SignalLib A}.

(* Options for tapering noise/signal windows *)
Definition TAPER_WIDTH : A := lit (5 # 100).
Definition TAPER_TYPE : string := "hann".
Definition TAPER_SIDE : string := "both".

(** Modelled from the spec: [gmprocess.utils._update_params] is not among
    the sources.  It stores the stage output in the record's
    processing-parameters map under the stage name, in place. *)
Definition _update_params (h : gmap ref (Trace A)) (tr : ref)
    (process_type : string) (parameters : gmap string (pyval A)) : gmap ref (Trace A) :=
  let t := h !!! tr in
  let s := stats t in
  <[tr := mkTrace (data t)
            (mkStats (sampling_rate s) (npts s) (starttime s)
               (<[process_type := parameters]> (processing_parameters s)))]> h.

(** [logging.info(message)] *)
Definition logging_info (σ : State A) (message : string) : State A :=
  mkState (heap σ) (traces σ) (log σ ++ [mkLog "INFO" message]).

(** [for tr in st: body]: obspy's [Stream.__iter__] iterates over a copy of
    [st.traces] taken when the loop starts. *)
Fixpoint for_each (body : State A → ref → result (State A))
    (snapshot : list ref) (σ : State A) : result (State A) :=
  match snapshot with
  | [] => Ok σ
  | tr :: rest => σ' ← body σ tr; for_each body rest σ'
  end.

(** *** [constant] *)

Definition constant_body
    (cf_config : gmap string (gmap string (pyval A)))
    (σ : State A) (tr : ref) : result (State A) :=
  c ← getitem cf_config "constant";
  highpass ← getitem c "highpass";
  c ← getitem cf_config "constant";
  lowpass ← getitem c "lowpass";
  Ok (mkState
        (_update_params (heap σ) tr "corner_frequencies"
           (<["type" := PStr "constant"]>
              (<["highpass" := highpass]> (<["lowpass" := lowpass]> ∅))))
        (traces σ) (log σ)).

Definition constant
    (CONFIG : gmap string (gmap string (gmap string (pyval A))))
    (σ : State A) : result (State A) :=
  cf_config ← getitem CONFIG "corner_frequencies";
  for_each (constant_body cf_config) (traces σ) σ.

(** *** [fft_smooth] *)

Definition fft_smooth (trace : Trace A) (nfft : Z) : result (list A * list A) :=
  (* Compute the FFT, normalizing by the number of data points *)
  let spec := (fun x => fdiv x (of_int nfft)) <$> rfft_abs (data trace) nfft in
  (* Get the frequencies associated with the FFT *)
  d ← pydiv (of_int 1) (sampling_rate (stats trace));
  freqs ← rfftfreq nfft d;
  (* Konno Omachi Smoothing using 20 for bandwidth parameter *)
  let spec_smooth := konno_ohmachi_smoothing spec freqs (of_int 20) in
  Ok (spec_smooth, freqs).

(** *** [snr] *)

(** [max(next_pow_2(signal.stats.npts), next_pow_2(noise.stats.npts))] *)
Definition fft_size (signal_npts noise_npts : Z) : result Z :=
  n_signal ← next_pow_2 signal_npts;
  n_noise ← next_pow_2 noise_npts;
  Ok (Z.max n_signal n_noise).

(** The spectra of one record: from the split of the trace to the
    subtraction of the noise level. *)
Definition snr_spectra (t : Trace A) : result (list A * list A * list A) :=
  (* Split the noise and signal into two separate traces *)
  pp ← getitem (processing_parameters (stats t)) "signal_split";
  split_time ← getitem pp "split_time";
  let noise := trim t None (Some split_time) in
  let signal := trim t (Some split_time) None in
  (* Taper both windows *)
  let noise := taper noise TAPER_WIDTH TAPER_TYPE TAPER_SIDE in
  let signal := taper signal TAPER_WIDTH TAPER_TYPE TAPER_SIDE in
  (* Find the number of points for the Fourier transform *)
  nfft ← fft_size (npts (stats signal)) (npts (stats noise));
  (* Transform to frequency domain and smooth spectra *)
  '(sig_spec_smooth, freqs_signal) ← fft_smooth signal nfft;
  '(noise_spec_smooth, freqs_noise) ← fft_smooth noise nfft;
  (* remove the noise level from the spectrum of the signal window *)
  sig_spec_smooth ← isub sig_spec_smooth noise_spec_smooth;
  Ok (freqs_signal, sig_spec_smooth, noise_spec_smooth).

Definition removal_message (t : Trace A) : string :=
  "Removing trace: " +:+ trace_str t +:+ " (failed SNR check)".

Definition snr_result (low_corner high_corner : A) : gmap string (pyval A) :=
  <["type" := PStr "snr"]>
    (<["highpass" := PNum low_corner]> (<["lowpass" := PNum high_corner]> ∅)).

(** What becomes of the record once the scan is over: the corners are
    attached, or the trace is logged and removed from the stream. *)
Definition snr_finish (σ : State A) (tr : ref) (r : option (A * A)) : result (State A) :=
  match r with
  | Some (low_corner, high_corner) =>
      Ok (mkState
            (_update_params (heap σ) tr "corner_frequencies"
               (snr_result low_corner high_corner))
            (traces σ) (log σ))
  | None =>
      let σ := logging_info σ (removal_message (heap σ !!! tr)) in
      traces' ← list_remove tr (traces σ);
      Ok (mkState (heap σ) traces' (log σ))
  end.

(** The loop body from the corner scan on. *)
Definition snr_record (freqs sig noise : list A)
    (threshold max_low_freq min_high_freq : A)
    (σ : State A) (tr : ref) : result (State A) :=
  r ← corner_scan freqs sig noise threshold max_low_freq min_high_freq;
  snr_finish σ tr r.

(** The loop body. *)
Definition snr_body (threshold max_low_freq min_high_freq : A)
    (σ : State A) (tr : ref) : result (State A) :=
  '(freqs_signal, sig_spec_smooth, noise_spec_smooth) ← snr_spectra (heap σ !!! tr);
  snr_record freqs_signal sig_spec_smooth noise_spec_smooth
    threshold max_low_freq min_high_freq σ tr.

Definition snr (σ : State A)
    (threshold max_low_freq min_high_freq bandwidth : A) : result (State A) :=
  for_each (snr_body threshold max_low_freq min_high_freq) (traces σ) σ.
End Pickers.

(** ** The outcome of one record, and what a run leaves behind *)

Section Outcome.
Context {A : Type} {HA : Arith A} {L : SignalLib A}.

(** The corners the loop body finds for a trace, [None] when the trace
    fails the check. *)
Definition snr_trace (threshold max_low_freq min_high_freq : A)
    (t : Trace A) : result (option (A * A)) :=
  '(freqs, sig, noise) ← snr_spectra t;
  corner_scan freqs sig noise threshold max_low_freq min_high_freq.

Definition passes (threshold max_low_freq min_high_freq : A)
    (h : gmap ref (Trace A)) (r : ref) : bool :=
  match snr_trace threshold max_low_freq min_high_freq (h !!! r) with
  | Ok (Some _) => true
  | _ => false
  end.

(** The stage output a record carries under ["corner_frequencies"]. *)
Definition corner_frequencies (h : gmap ref (Trace A)) (r : ref)
    : option (gmap string (pyval A)) :=
  processing_parameters (stats (h !!! r)) !! "corner_frequencies".


(** The log record of a removal. *)
Definition removal_record (h : gmap ref (Trace A)) (r : ref) : LogRecord :=
  mkLog "INFO" (removal_message (h !!! r)).

(** A trace with one more stage output. *)
Definition with_parameters (t : Trace A) (process_type : string)
    (parameters : gmap string (pyval A)) : Trace A :=
  mkTrace (data t)
    (mkStats (sampling_rate (stats t)) (npts (stats t)) (starttime (stats t))
       (<[process_type := parameters]> (processing_parameters (stats t)))).

(** The stage output [constant] attaches. *)
Definition constant_result (highpass lowpass : pyval A) : gmap string (pyval A) :=
  <["type" := PStr "constant"]> (<["highpass" := highpass]> (<["lowpass" := lowpass]> ∅)).
End Outcome.

(** ** The candidate pairs, in the words of the specification *)

Section Candidates.
Context {A : Type} {HA : Arith A}.

(** The maximum of the grid, when there is one. *)
Definition max_freq (freqs : list A) : list A :=
  match pymax freqs with Ok m => [m] | Raise _ => [] end.

(** The candidate highs once an open band has been closed. *)
Definition closed_highs (freqs : list A) (s : walk_state A) : list A :=
  if have_low s then highs s ++ max_freq freqs else highs s.

(** The candidate pairs, in order of discovery. *)
Definition candidate_pairs (freqs : list A) (s : walk_state A) : list (A * A) :=
  zip (lows s) (closed_highs freqs s).

(** A pair is valid if [low <= max_low_freq] and [high > min_high_freq]. *)
Definition pair_ok (max_low_freq min_high_freq : A) (p : A * A) : bool :=
  fle p.1 max_low_freq && flt min_high_freq p.2.

(** The walk is inside a band exactly when it holds one more low than highs. *)
Definition balanced (s : walk_state A) : Prop :=
  length (lows s) = (length (highs s) + (if have_low s then 1 else 0))%nat.
End Candidates.

(** What the proofs need from the comparisons: a number at or above another
    is not below it. *)
Class ArithLaws (A : Type) {HA : Arith A} : Prop := {
  fle_not_flt : ∀ x y : A, fle x y = true → flt y x = false;
}.

(** ** A small world to run the pickers on

    Stand-ins for the library calls, on binary64: the split time is an
    offset in samples from the start of the record, the taper and the
    smoothing leave their input as it is, and the magnitude spectrum is read
    off the samples. *)

Module Demo.
Local Open Scope float_scope.

Definition window (t : Trace float) (l : list float) : Trace float :=
  mkTrace l (mkStats (sampling_rate (stats t)) (Z.of_nat (length l))
               (starttime (stats t)) (processing_parameters (stats t))).

Definition offset (t : Trace float) (v : pyval float) : nat :=
  match v with
  | PTime ns => Z.to_nat (ns - starttime (stats t))
  | _ => 0%nat
  end.

Definition lib : SignalLib float := {|
  trim t s e :=
    let l := match e with Some v => take (offset t v) (data t) | None => data t end in
    window t (match s with Some v => drop (offset t v) l | None => l end);
  taper t _ _ _ := t;
  rfft_abs d nfft :=
    let n := Z.to_nat (nfft / 2 + 1) in
    take n (PrimFloat.abs <$> d) ++ replicate (n - length d) 0;
  konno_ohmachi_smoothing spec _ _ := spec;
  trace_str t := "trace@" +:+ pretty (starttime (stats t));
|}.


Definition split_at (ns : Z) : gmap string (gmap string (pyval float)) :=
  {[ "signal_split" := {[ "split_time" := PTime ns ]} ]}.

(** Two samples of noise and two of signal, at 4 Hz. *)
Definition loud : Trace float := mkTrace [1; 1; 8; 8] (mkStats 4 4 0 (split_at 2)).
Definition quiet : Trace float := mkTrace [1; 1; 1; 1] (mkStats 4 4 10 (split_at 12)).

(** Eight samples of noise, then a signal that rises above it three times;
    the grid is 0, 1, 2, 3, 4 Hz. *)
Definition bursty : Trace float :=
  mkTrace [1; 1; 1; 1; 1; 1; 1; 1; 8; 1; 8; 1; 8; 1; 1; 1] (mkStats 8 16 0 (split_at 8)).

Definition world : State float :=
  mkState (<[0%nat := loud]> (<[1%nat := quiet]> (<[2%nat := bursty]> ∅)))
    [1%nat; 0%nat; 2%nat] [].

(** The spectra the stand-ins give for [bursty], and where its walk ends. *)
Definition grid : list float := [0; 1; 2; 3; 4].
Definition bursty_signal : list float := [0.875; 0; 0.875; 0; 0.875].
Definition bursty_noise : list float := [0.125; 0.125; 0.125; 0.125; 0.125].
Definition bursty_walk : walk_state float := WalkState [0; 2; 4] [1; 3] true.



Definition CONFIG : gmap string (gmap string (gmap string (pyval float))) :=
  {[ "corner_frequencies" :=
       {[ "constant" := {[ "highpass" := PNum 0.08; "lowpass" := PNum 20 ]} ]} ]}.
End Demo.

(** The scenario of the specification: eleven bins from 0.0 to 1.0 Hz, the
    noise curve, the signal curve, and the signal curve less the noise. *)
Section ScenarioData.
Local Open Scope float_scope.

Definition scenario_freqs : list float :=
  [0.0; 0.1; 0.2; 0.3; 0.4; 0.5; 0.6; 0.7; 0.8; 0.9; 1.0].
Definition scenario_noise : list float :=
  [1.0; 1.0; 1.0; 1.0; 1.0; 1.0; 1.0; 1.0; 1.0; 1.0; 1.0].
Definition scenario_signal : list float :=
  [1.0; 1.0; 6.0; 6.0; 6.0; 6.0; 6.0; 1.0; 1.0; 1.0; 1.0].
Definition scenario_denoised : list float :=
  [0.0; 0.0; 5.0; 5.0; 5.0; 5.0; 5.0; 0.0; 0.0; 0.0; 0.0].
End ScenarioData.


(** ** Vocabulary for the further properties *)

(** The candidate corners in the order the walk finds them:
    low, high, low, high, ... *)
Fixpoint interleave {T} (los his : list T) : list T :=
  match los with
  | [] => []
  | l :: los' =>
      l :: match his with
           | [] => []
           | h :: his' => h :: interleave los' his'
           end
  end.

Section MoreVocabulary.
Context {A : Type} {HA : Arith A} {L : SignalLib A}.

(** The grid rises: every frequency is below the ones after it. *)
Definition rising (freqs : list A) : Prop :=
  StronglySorted (λ a b, flt a b = true) freqs.

(** Two states of a trace object that differ at most in the stage output
    under ["corner_frequencies"]. *)
Definition same_but_corners (t t' : Trace A) : Prop :=
  data t' = data t
  ∧ sampling_rate (stats t') = sampling_rate (stats t)
  ∧ npts (stats t') = npts (stats t)
  ∧ starttime (stats t') = starttime (stats t)
  ∧ ∀ key, key ≠ "corner_frequencies" →
      processing_parameters (stats t') !! key = processing_parameters (stats t) !! key.

Definition heaps_same_but_corners (σ σ' : State A) : Prop :=
  ∀ r, same_but_corners (heap σ !!! r) (heap σ' !!! r).

End MoreVocabulary.

(** More sample data: a trace without a split time, and a stream that
    reaches it after two good records. *)
Module Samples.
Local Open Scope float_scope.

Definition unsplit : Trace float := mkTrace [1; 1; 8; 8] (mkStats 4 4 20 ∅).

Definition world : State float :=
  mkState (<[0%nat := Demo.loud]> (<[1%nat := Demo.quiet]> (<[3%nat := unsplit]> ∅)))
    [1%nat; 0%nat; 3%nat] [].
End Samples.

(** ** Facts about the error monad and the built-ins *)

Lemma bind_Ok {T U} (m : result T) (f : T → result U) (y : U) :
  m ≫= f = Ok y ↔ ∃ x, m = Ok x ∧ f x = Ok y.
Proof.
  destruct m as [x|e]; cbn; split.
  - eauto.
  - intros (x' & [= <-] & ?). done.
  - done.
  - intros (? & ? & ?). done.
Qed.

Lemma index_Ok {T} (a : list T) (idx : nat) :
  (idx < length a)%nat → ∃ x, index a idx = Ok x ∧ a !! idx = Some x.
Proof.
  intros Hlt. destruct (lookup_lt_is_Some_2 a idx Hlt) as [x Hx].
  exists x. unfold index. by rewrite Hx.
Qed.

Lemma list_remove_Ok {T} `{EqDecision T} (x : T) (l : list T) :
  x ∈ l →
  ∃ l1 l2, l = l1 ++ (x :: l2) ∧ (x ∉ l1) ∧ list_remove x l = Ok (l1 ++ l2).
Proof.
  induction l as [|y l IH]; intros Hin.
  - by apply elem_of_nil in Hin.
  - cbn. destruct (decide (y = x)) as [->|Hne].
    + exists [], l. split_and!; [done| |done]. apply not_elem_of_nil.
    + apply elem_of_cons in Hin as [->|Hin]; [done|].
      destruct (IH Hin) as (l1 & l2 & -> & Hnot & ->).
      exists (y :: l1), l2. split_and!; [done| |done].
      rewrite elem_of_cons. intros [->|?]; done.
Qed.

Lemma list_remove_inv {T} `{EqDecision T} (x : T) (l l' : list T) :
  list_remove x l = Ok l' →
  ∃ l1 l2, l = l1 ++ (x :: l2) ∧ (x ∉ l1) ∧ l' = l1 ++ l2.
Proof.
  revert l'. induction l as [|y l IH]; intros l' Hrm; [done|].
  cbn in Hrm. destruct (decide (y = x)) as [->|Hne].
  - injection Hrm as <-. exists [], l. split_and!; [done| |done]. apply not_elem_of_nil.
  - apply bind_Ok in Hrm as (l'' & Hrm & [= <-]).
    destruct (IH _ Hrm) as (l1 & l2 & -> & Hnot & ->).
    exists (y :: l1), l2. split_and!; [done| |done].
    rewrite elem_of_cons. intros [->|?]; done.
Qed.

(** ** Facts about the corner scan *)

Section ScanFacts.
Context {A : Type} {HA : Arith A}.
Implicit Types (freqs sig noise : list A) (s : walk_state A) (idx : nat).

Lemma pymax_Ok freqs : freqs ≠ [] → ∃ m, pymax freqs = Ok m.
Proof. destruct freqs; [done|]. cbn. eauto. Qed.

Lemma walk_step_cases sig noise threshold s idx freq s' :
  walk_step sig noise threshold s idx freq = Ok s' →
  s' = s
  ∨ (have_low s = false ∧ s' = WalkState (lows s ++ [freq]) (highs s) true)
  ∨ (have_low s = true ∧ s' = WalkState (lows s) (highs s ++ [freq]) false).
Proof.
  unfold walk_step. intros Hst.
  apply bind_Ok in Hst as (x & _ & Hst). apply bind_Ok in Hst as (y & _ & Hst).
  destruct (have_low s) eqn:Hl.
  - destruct (flt _ _); injection Hst as <-; eauto.
  - destruct (fle _ _); injection Hst as <-; eauto.
Qed.

Lemma walk_step_returns sig noise threshold s idx freq :
  (idx < length sig)%nat → (idx < length noise)%nat →
  returns (walk_step sig noise threshold s idx freq).
Proof.
  intros Hs Hn. unfold walk_step, returns.
  destruct (index_Ok sig idx Hs) as (x & -> & _).
  destruct (index_Ok noise idx Hn) as (y & -> & _). cbn.
  destruct (have_low s); [destruct (flt _ _)|destruct (fle _ _)]; eauto.
Qed.

Lemma walk_returns sig noise threshold freqs : ∀ idx s,
  (idx + length freqs ≤ length sig)%nat →
  (idx + length freqs ≤ length noise)%nat →
  returns (walk sig noise threshold idx freqs s).
Proof.
  induction freqs as [|freq freqs IH]; intros idx s Hs Hn; cbn in *.
  - by exists s.
  - destruct (walk_step_returns sig noise threshold s idx freq) as [s' ->]; [lia..|].
    cbn. apply IH; lia.
Qed.

Lemma walk_step_balanced sig noise threshold s idx freq s' :
  walk_step sig noise threshold s idx freq = Ok s' → balanced s → balanced s'.
Proof.
  intros Hst Hb. unfold balanced in *.
  destruct (walk_step_cases _ _ _ _ _ _ _ Hst) as [->|[[Hl ->]|[Hl ->]]];
    [done|..]; cbn; rewrite Hl in Hb; rewrite length_app; cbn; lia.
Qed.

Lemma walk_balanced sig noise threshold freqs : ∀ idx s s',
  walk sig noise threshold idx freqs s = Ok s' → balanced s → balanced s'.
Proof.
  induction freqs as [|freq freqs IH]; intros idx s s' Hw Hb; cbn in Hw.
  - by injection Hw as <-.
  - apply bind_Ok in Hw as (s1 & Hst & Hw).
    eapply IH; [done|]. by eapply walk_step_balanced.
Qed.

Lemma walk_init_balanced : balanced (@walk_init A).
Proof. done. Qed.

(** A walk over an empty grid finds nothing. *)
Lemma walk_lows_grid sig noise threshold freqs s :
  walk sig noise threshold 0 freqs walk_init = Ok s → lows s ≠ [] → freqs ≠ [].
Proof. destruct freqs; [|done]. cbn. by intros [= <-]. Qed.

Lemma close_band_closed freqs s :
  balanced s → freqs ≠ [] →
  close_band freqs (lows s) (highs s) = Ok (closed_highs freqs s)
  ∧ length (closed_highs freqs s) = length (lows s).
Proof.
  intros Hb Hne. unfold close_band, closed_highs, max_freq, balanced in *.
  destruct (pymax_Ok freqs Hne) as [m ->]. cbn.
  destruct (have_low s); case_decide; try lia;
    rewrite ?length_app; cbn; split; (done || lia).
Qed.

Lemma close_band_idle freqs (los his : list A) :
  length his = length los → close_band freqs los his = Ok his.
Proof. intros Hl. unfold close_band. case_decide; [lia|done]. Qed.

Lemma check_pairs_last max_low_freq min_high_freq (his : list A) :
  ∀ (los : list A) idx found,
  (idx + length los ≤ length his)%nat →
  check_pairs max_low_freq min_high_freq his idx los found =
  Ok (match last (List.filter (pair_ok max_low_freq min_high_freq)
                    (zip los (drop idx his))) with
      | Some p => Some p
      | None => found
      end).
Proof.
  induction los as [|val los IH]; intros idx found Hlen; cbn in *; [done|].
  destruct (index_Ok his idx) as (h & Hh & Hlk); [lia|].
  rewrite (drop_S _ _ _ Hlk). cbn.
  unfold pair_valid, pair_ok at 1. cbn.
  destruct (fle val max_low_freq); cbn.
  - rewrite Hh. cbn. destruct (flt min_high_freq h); cbn; rewrite IH by lia.
    + rewrite last_cons. by destruct (last _).
    + done.
  - by rewrite IH by lia.
Qed.

(** The scan returns the last valid candidate pair, if there is one. *)
Lemma corner_scan_last freqs sig noise threshold max_low_freq min_high_freq s :
  walk sig noise threshold 0 freqs walk_init = Ok s →
  corner_scan freqs sig noise threshold max_low_freq min_high_freq =
  Ok (last (List.filter (pair_ok max_low_freq min_high_freq) (candidate_pairs freqs s))).
Proof.
  intros Hw. unfold corner_scan, candidate_pairs. rewrite Hw. cbn.
  destruct (lows s) as [|lo los] eqn:Hlows; [done|].
  assert (Hb : balanced s) by (eapply walk_balanced; [done|apply walk_init_balanced]).
  assert (Hne : freqs ≠ []) by (eapply walk_lows_grid; [done|by rewrite Hlows]).
  destruct (close_band_closed freqs s Hb Hne) as [Hc Hlen].
  rewrite Hlows in Hc, Hlen. rewrite Hc. cbn -[check_pairs].
  rewrite (check_pairs_last _ _ _ (lo :: los) 0 None) by (rewrite Hlen; cbn; lia).
  cbn -[check_pairs]. rewrite close_band_idle by done. cbn -[check_pairs].
  rewrite (check_pairs_last _ _ _ (lo :: los) 0 None) by (rewrite Hlen; cbn; lia).
  rewrite drop_0. by destruct (last _).
Qed.
End ScanFacts.


Section PickerFacts.
Context {A : Type} {HA : Arith A} {L : SignalLib A}.
Implicit Types (σ : State A) (h : gmap ref (Trace A)) (tr r : ref).

Lemma update_params_same h tr key p :
  _update_params h tr key p !!! tr = with_parameters (h !!! tr) key p.
Proof. unfold _update_params. by rewrite lookup_total_insert_eq. Qed.

Lemma update_params_other h tr key p r :
  r ≠ tr → _update_params h tr key p !! r = h !! r.
Proof. intros Hne. unfold _update_params. by rewrite lookup_insert_ne. Qed.

Lemma update_params_other_total h tr key p r :
  r ≠ tr → _update_params h tr key p !!! r = h !!! r.
Proof.
  intros Hne. unfold _update_params. by rewrite lookup_total_insert_ne.
Qed.

Lemma corner_frequencies_update h tr p :
  corner_frequencies (_update_params h tr "corner_frequencies" p) tr = Some p.
Proof.
  unfold corner_frequencies. rewrite update_params_same. cbn.
  by rewrite lookup_insert_eq.
Qed.


Lemma snr_body_trace threshold max_low_freq min_high_freq σ tr :
  snr_body threshold max_low_freq min_high_freq σ tr =
  snr_trace threshold max_low_freq min_high_freq (heap σ !!! tr) ≫= snr_finish σ tr.
Proof.
  unfold snr_body, snr_trace, snr_record.
  destruct (snr_spectra _) as [[[freqs sig] noise]|e]; [|done]. cbn.
  by destruct (corner_scan _ _ _ _ _ _).
Qed.

Lemma snr_finish_Some σ tr low high :
  snr_finish σ tr (Some (low, high)) =
  Ok (mkState (_update_params (heap σ) tr "corner_frequencies" (snr_result low high))
        (traces σ) (log σ)).
Proof. done. Qed.

Lemma snr_finish_None σ tr σ' :
  snr_finish σ tr None = Ok σ' →
  ∃ l1 l2, traces σ = l1 ++ (tr :: l2) ∧ (tr ∉ l1) ∧
    σ' = mkState (heap σ) (l1 ++ l2) (log σ ++ [removal_record (heap σ) tr]).
Proof.
  unfold snr_finish. cbn. intros Hf.
  apply bind_Ok in Hf as (l' & Hrm & [= <-]).
  destruct (list_remove_inv _ _ _ Hrm) as (l1 & l2 & -> & Hnot & ->).
  by exists l1, l2.
Qed.

Lemma snr_finish_None_Ok σ tr :
  tr ∈ traces σ →
  ∃ l1 l2, traces σ = l1 ++ (tr :: l2) ∧ (tr ∉ l1) ∧
    snr_finish σ tr None =
    Ok (mkState (heap σ) (l1 ++ l2) (log σ ++ [removal_record (heap σ) tr])).
Proof.
  intros Hin. destruct (list_remove_Ok _ _ Hin) as (l1 & l2 & Heq & Hnot & Hrm).
  exists l1, l2. split_and!; [done..|].
  unfold snr_finish. cbn. by rewrite Hrm.
Qed.

(** One turn of the loop either attaches corners and keeps the stream, or
    takes one occurrence of the trace out of it. *)
Lemma snr_body_inv threshold max_low_freq min_high_freq σ tr σ' :
  snr_body threshold max_low_freq min_high_freq σ tr = Ok σ' →
  (∃ low high,
      snr_trace threshold max_low_freq min_high_freq (heap σ !!! tr) = Ok (Some (low, high))
      ∧ σ' = mkState (_update_params (heap σ) tr "corner_frequencies" (snr_result low high))
               (traces σ) (log σ))
  ∨ (snr_trace threshold max_low_freq min_high_freq (heap σ !!! tr) = Ok None
     ∧ ∃ l1 l2, traces σ = l1 ++ (tr :: l2) ∧ (tr ∉ l1) ∧
         σ' = mkState (heap σ) (l1 ++ l2) (log σ ++ [removal_record (heap σ) tr])).
Proof.
  rewrite snr_body_trace. intros Hb.
  apply bind_Ok in Hb as ([[low high]|] & Htr & Hf).
  - left. exists low, high. split; [done|]. by injection Hf as <-.
  - right. split; [done|]. by apply snr_finish_None.
Qed.

(** *** Any stream: what is left is annotated *)


End PickerFacts.

Lemma app_pivot_inj {T} (x : T) (l1 l2 k1 k2 : list T) :
  l1 ++ x :: l2 = k1 ++ x :: k2 → x ∉ l1 → x ∉ k1 → l1 = k1 ∧ l2 = k2.
Proof.
  revert k1. induction l1 as [|y l1 IH]; intros [|z k1] Heq Hl Hk; cbn in Heq.
  - by injection Heq as <-.
  - injection Heq as <- _. exfalso. apply Hk, elem_of_cons. by left.
  - injection Heq as -> _. exfalso. apply Hl, elem_of_cons. by left.
  - injection Heq as <- Heq. rewrite elem_of_cons in Hl, Hk.
    destruct (IH k1 Heq) as [-> ->]; [tauto..|done].
Qed.

Lemma NoDup_pivot {T} (pre : list T) (x : T) (rest : list T) :
  NoDup (pre ++ x :: rest) → (x ∉ pre) ∧ (x ∉ rest) ∧ NoDup (pre ++ rest).
Proof.
  intros (Hp & Hpr & [Hr Hrest]%NoDup_cons)%NoDup_app. split_and!.
  - intros Hin. apply (Hpr _ Hin), elem_of_cons. by left.
  - done.
  - apply NoDup_app. split_and!; [done| |done].
    intros y Hy Hy'. apply (Hpr _ Hy), elem_of_cons. by right.
Qed.

Lemma filter_agree {T} (f g : T → bool) (l : list T) :
  (∀ x, x ∈ l → f x = g x) → List.filter f l = List.filter g l.
Proof. intros Hfg. apply List.filter_ext_in. intros x Hx. by apply Hfg, list_elem_of_In. Qed.

Lemma elem_of_filter_bool {T} (f : T → bool) (l : list T) (x : T) :
  x ∈ List.filter f l ↔ x ∈ l ∧ f x = true.
Proof. rewrite !list_elem_of_In. apply List.filter_In. Qed.

Section RunFacts.
Context {A : Type} {HA : Arith A} {L : SignalLib A}.
Implicit Types (σ : State A) (h : gmap ref (Trace A)) (tr r : ref).
Variables threshold max_low_freq min_high_freq : A.

Abbreviation body := (snr_body threshold max_low_freq min_high_freq).
Abbreviation outcome := (snr_trace threshold max_low_freq min_high_freq).
Abbreviation pass := (passes threshold max_low_freq min_high_freq).

Lemma passes_agree h h' (l : list ref) :
  (∀ r, r ∈ l → h' !!! r = h !!! r) →
  List.filter (pass h') l = List.filter (pass h) l
  ∧ List.filter (λ r, negb (pass h' r)) l = List.filter (λ r, negb (pass h r)) l.
Proof.
  intros Hh. split; apply filter_agree; intros r Hr; unfold passes; by rewrite Hh.
Qed.

(** *** A stream without repeated members: the run, record by record *)
Lemma for_each_snr_distinct : ∀ snapshot pre σ σ',
  for_each body snapshot σ = Ok σ' →
  traces σ = pre ++ snapshot →
  NoDup (pre ++ snapshot) →
  traces σ' = pre ++ List.filter (pass (heap σ)) snapshot
  ∧ log σ' = log σ ++ (removal_record (heap σ) <$>
                         List.filter (λ r, negb (pass (heap σ) r)) snapshot)
  ∧ (∀ r, r ∈ snapshot → returns (outcome (heap σ !!! r)))
  ∧ (∀ r low high, r ∈ snapshot → outcome (heap σ !!! r) = Ok (Some (low, high)) →
       heap σ' !! r = Some (with_parameters (heap σ !!! r) "corner_frequencies"
                              (snr_result low high)))
  ∧ (∀ r, r ∉ snapshot ∨ outcome (heap σ !!! r) = Ok None → heap σ' !! r = heap σ !! r).
Proof.
  induction snapshot as [|tr rest IH]; intros pre σ σ' Hrun Htr Hnd; cbn in Hrun.
  { injection Hrun as <-. cbn.
    split_and!; [done|by rewrite app_nil_r| | |done].
    - intros r Hr. by apply elem_of_nil in Hr.
    - intros r low high Hr. by apply elem_of_nil in Hr. }
  apply bind_Ok in Hrun as (σ1 & Hbody & Hrun).
  pose proof (NoDup_pivot _ _ _ Hnd) as Hfresh.
  destruct Hfresh as (Hpre & Hrest & Hnd').
  destruct (snr_body_inv _ _ _ _ _ _ Hbody)
    as [(low & high & Hout & ->)|(Hout & l1 & l2 & Hsplit & Hl1 & ->)].
  - (* the trace is kept *)
    destruct (IH (pre ++ [tr]) _ _ Hrun) as (Ht & Hl & Hret & Hsome & Hsame); cbn.
    { by rewrite Htr, <- app_assoc. }
    { by rewrite <- app_assoc. }
    cbn in *.
    assert (Hh : ∀ r, r ∈ rest →
      _update_params (heap σ) tr "corner_frequencies" (snr_result low high) !!! r
      = heap σ !!! r).
    { intros r Hr. apply update_params_other_total. by intros ->. }
    destruct (passes_agree (heap σ) _ rest Hh) as [Hp Hn].
    assert (Hpass : pass (heap σ) tr = true) by (unfold passes; by rewrite Hout).
    rewrite Hpass. cbn. split_and!.
    + by rewrite Ht, Hp, <- app_assoc.
    + rewrite Hl, Hn. f_equal. apply list_fmap_ext. intros i r Hi.
      apply list_elem_of_lookup_2, elem_of_filter_bool in Hi as [Hr _].
      unfold removal_record. by rewrite Hh.
    + intros r [->|Hr]%elem_of_cons; [by eexists|].
      rewrite <- (Hh r Hr). by apply Hret.
    + intros r lo hi [->|Hr]%elem_of_cons Hr'.
      * rewrite Hsame by (by left). rewrite Hr' in Hout. injection Hout as -> ->.
        unfold _update_params. by rewrite lookup_insert_eq.
      * rewrite <- (Hh r Hr) in Hr'. rewrite (Hsome _ _ _ Hr Hr'), (Hh r Hr).
        done.
    + intros r Hr. assert (Hne : r ≠ tr).
      { intros ->. destruct Hr as [Hr|Hr]; [|congruence].
        apply Hr, elem_of_cons. by left. }
      rewrite Hsame; [by apply update_params_other|].
      destruct Hr as [Hr|Hr].
      * left. intros Hin. apply Hr, elem_of_cons. by right.
      * right. by rewrite update_params_other_total.
  - (* the trace is removed *)
    rewrite Htr in Hsplit.
    destruct (app_pivot_inj _ _ _ _ _ Hsplit Hpre Hl1) as [<- <-].
    destruct (IH pre _ _ Hrun) as (Ht & Hl & Hret & Hsome & Hsame); cbn; [done..|].
    cbn in *.
    assert (Hpass : pass (heap σ) tr = false) by (unfold passes; by rewrite Hout).
    rewrite Hpass. cbn. split_and!.
    + done.
    + by rewrite Hl, <- app_assoc.
    + intros r [->|Hr]%elem_of_cons; [by eexists|by apply Hret].
    + intros r lo hi [->|Hr]%elem_of_cons Hr'; [congruence|by apply Hsome].
    + intros r [Hr|Hr]; apply Hsame; [|by right].
      left. intros Hin. apply Hr, elem_of_cons. by right.
Qed.
End RunFacts.

(** ** Facts about the spectra *)

Section SpectraFacts.
Context {A : Type} {HA : Arith A} {L : SignalLib A}.

Lemma rfftfreq_length (n : Z) (d : A) (freqs : list A) :
  rfftfreq n d = Ok freqs → length freqs = Z.to_nat (n / 2 + 1).
Proof.
  unfold rfftfreq. intros Hf. apply bind_Ok in Hf as (val & _ & [= <-]).
  by rewrite length_fmap, length_seq.
Qed.

Lemma fft_smooth_freqs (trace : Trace A) (nfft : Z) (spec freqs : list A) :
  fft_smooth trace nfft = Ok (spec, freqs) →
  ∃ d, pydiv (of_int 1) (sampling_rate (stats trace)) = Ok d
       ∧ rfftfreq nfft d = Ok freqs
       ∧ spec = konno_ohmachi_smoothing
                  ((λ x, fdiv x (of_int nfft)) <$> rfft_abs (data trace) nfft)
                  freqs (of_int 20).
Proof.
  unfold fft_smooth. intros Hf.
  apply bind_Ok in Hf as (d & Hd & Hf). apply bind_Ok in Hf as (fs & Hfs & [= <- <-]).
  by exists d.
Qed.

Lemma fft_smooth_lengths `{!SignalLibSpec A}
    (trace : Trace A) (nfft : Z) (spec freqs : list A) :
  fft_smooth trace nfft = Ok (spec, freqs) →
  length freqs = Z.to_nat (nfft / 2 + 1) ∧ length spec = Z.to_nat (nfft / 2 + 1).
Proof.
  intros (d & _ & Hfs & ->)%fft_smooth_freqs. split.
  - by eapply rfftfreq_length.
  - by rewrite konno_ohmachi_smoothing_length, length_fmap, rfft_abs_length.
Qed.

Lemma isub_length (a b c : list A) :
  isub a b = Ok c → length a = length b ∧ length c = length a.
Proof.
  unfold isub. case_decide as Hl; [|done]. intros [= <-].
  split; [done|]. rewrite length_zip_with. lia.
Qed.

(** The two spectra and the grid of a record have one length. *)
Lemma snr_spectra_lengths `{!SignalLibSpec A} (t : Trace A) (freqs sig noise : list A) :
  snr_spectra t = Ok (freqs, sig, noise) →
  length sig = length freqs ∧ length noise = length freqs.
Proof.
  unfold snr_spectra. intros Hs.
  apply bind_Ok in Hs as (pp & _ & Hs). apply bind_Ok in Hs as (split_time & _ & Hs).
  apply bind_Ok in Hs as (nfft & _ & Hs).
  apply bind_Ok in Hs as ([s1 f1] & Hsig & Hs).
  apply bind_Ok in Hs as ([s2 f2] & Hnoise & Hs).
  apply bind_Ok in Hs as (s3 & Hsub & [= <- <- <-]).
  apply fft_smooth_lengths in Hsig as [Hf1 Hs1].
  apply fft_smooth_lengths in Hnoise as [Hf2 Hs2].
  apply isub_length in Hsub as [_ Hs3]. lia.
Qed.

(** Once the spectra are there, the scan cannot fail. *)
Lemma snr_trace_returns `{!SignalLibSpec A}
    (threshold max_low_freq min_high_freq : A) (t : Trace A) :
  returns (snr_spectra t) →
  returns (snr_trace threshold max_low_freq min_high_freq t).
Proof.
  intros [[[freqs sig] noise] Hs]. unfold snr_trace. rewrite Hs. cbn.
  destruct (snr_spectra_lengths _ _ _ _ Hs) as [Hl1 Hl2].
  destruct (walk_returns sig noise threshold freqs 0 walk_init) as [s Hw]; [lia..|].
  rewrite (corner_scan_last _ _ _ _ _ _ _ Hw). by eexists.
Qed.
End SpectraFacts.

(** ** Runs that return *)

Section Returns.
Context {A : Type} {HA : Arith A} {L : SignalLib A} {LS : SignalLibSpec A}.
Implicit Types (σ : State A) (tr r : ref).

Lemma for_each_snr_returns (threshold max_low_freq min_high_freq : A) :
  ∀ snapshot pre σ,
  traces σ = pre ++ snapshot →
  NoDup (pre ++ snapshot) →
  (∀ r, r ∈ snapshot → returns (snr_spectra (heap σ !!! r))) →
  returns (for_each (snr_body threshold max_low_freq min_high_freq) snapshot σ).
Proof.
  induction snapshot as [|tr rest IH]; intros pre σ Htr Hnd Hspec; cbn.
  { by exists σ. }
  destruct (NoDup_pivot _ _ _ Hnd) as (Hpre & Hrest & Hnd').
  rewrite snr_body_trace.
  destruct (snr_trace_returns threshold max_low_freq min_high_freq (heap σ !!! tr))
    as [[[low high]|] Hout].
  { apply Hspec, elem_of_cons. by left. }
  - rewrite Hout. cbn [mbind result_bind]. rewrite snr_finish_Some.
    cbn [mbind result_bind]. apply (IH (pre ++ [tr])); cbn.
    + by rewrite Htr, <- app_assoc.
    + by rewrite <- app_assoc.
    + intros r Hr. rewrite update_params_other_total by (by intros ->).
      apply Hspec, elem_of_cons. by right.
  - rewrite Hout. cbn [mbind result_bind].
    destruct (snr_finish_None_Ok σ tr) as (l1 & l2 & Hsplit & Hl1 & ->).
    { rewrite Htr, elem_of_app, elem_of_cons. right. by left. }
    rewrite Htr in Hsplit.
    destruct (app_pivot_inj _ _ _ _ _ Hsplit Hpre Hl1) as [<- <-].
    cbn [mbind result_bind]. apply (IH pre); cbn; [done..|].
    intros r Hr. apply Hspec, elem_of_cons. by right.
Qed.

Lemma snr_returns (threshold max_low_freq min_high_freq bandwidth : A) σ :
  NoDup (traces σ) →
  (∀ r, r ∈ traces σ → returns (snr_spectra (heap σ !!! r))) →
  returns (snr σ threshold max_low_freq min_high_freq bandwidth).
Proof. intros Hnd Hspec. by apply (for_each_snr_returns _ _ _ (traces σ) []). Qed.
End Returns.

(** ** Laws of the comparisons *)


Lemma compare_cont_flip (p q : positive) :
  Pos.compare_cont Eq q p = CompOpp (Pos.compare_cont Eq p q).
Proof. symmetry. apply (Pos.compare_cont_antisym p q Eq). Qed.

Lemma SFcompare_antisym (x y : SpecFloat.spec_float) :
  SpecFloat.SFcompare y x = option_map CompOpp (SpecFloat.SFcompare x y).
Proof.
  destruct x as [[]| []| |[] mx ex], y as [[]| []| |[] my ey]; cbn; try reflexivity;
    rewrite (compare_cont_flip mx my), (Z.compare_antisym ex ey);
    destruct (ex ?= ey)%Z; cbn; try reflexivity;
    destruct (Pos.compare_cont Eq mx my); reflexivity.
Qed.

#[global] Instance float64_laws : ArithLaws float.
Proof.
  split. intros x y. cbn. rewrite FloatAxioms.leb_spec, FloatAxioms.ltb_spec.
  unfold SpecFloat.SFleb, SpecFloat.SFltb. rewrite (SFcompare_antisym (Prim2SF x) (Prim2SF y)).
  destruct (SpecFloat.SFcompare _ _) as [[]|]; cbn; congruence.
Qed.

#[global] Instance exact_laws : ArithLaws Qc.
Proof.
  split. intros x y. cbn. rewrite !bool_decide_eq_true, bool_decide_eq_false.
  apply Qcle_not_lt.
Qed.

(** ** The corner scan: which pair is attached, and how an open band is closed *)

Section ScanClaims.
Context {A : Type} {HA : Arith A} {L : SignalLib A}.
Implicit Types (σ : State A) (tr : ref) (freqs sig noise : list A) (s : walk_state A).



(** C4. A record with no candidate low, or with no valid candidate pair, is
    taken out of the stream at its place by the loop body, which logs one INFO
    record naming the trace and returns normally; the other members of the
    stream, in their order, and every trace object stay as they were.  Over a
    whole run on distinct members, the record is absent from the result and
    untouched, the log has gained one record for each rejected member and
    nothing else, and the run returns whenever every member's spectra can be
    computed. *)
Theorem snr_rejects_quietly
    (threshold max_low_freq min_high_freq : A) σ tr freqs sig noise s :
  tr ∈ traces σ →
  snr_spectra (heap σ !!! tr) = Ok (freqs, sig, noise) →
  walk sig noise threshold 0 freqs walk_init = Ok s →
  lows s = [] ∨ List.filter (pair_ok max_low_freq min_high_freq) (candidate_pairs freqs s) = [] →
  (∃ before after,
      traces σ = before ++ (tr :: after) ∧ (tr ∉ before) ∧
      snr_body threshold max_low_freq min_high_freq σ tr =
      Ok (mkState (heap σ) (before ++ after)
            (log σ ++ [mkLog "INFO" ("Removing trace: " +:+ trace_str (heap σ !!! tr)
                                     +:+ " (failed SNR check)")])))
  ∧ (∀ bandwidth σ',
      NoDup (traces σ) →
      snr σ threshold max_low_freq min_high_freq bandwidth = Ok σ' →
      (tr ∉ traces σ')
      ∧ heap σ' !! tr = heap σ !! tr
      ∧ traces σ' =
        List.filter (passes threshold max_low_freq min_high_freq (heap σ)) (traces σ)
      ∧ log σ' =
        log σ ++ (removal_record (heap σ) <$>
                    List.filter (λ r, negb (passes threshold max_low_freq min_high_freq
                                              (heap σ) r)) (traces σ)))
  ∧ (∀ bandwidth,
      SignalLibSpec A →
      NoDup (traces σ) →
      (∀ r, r ∈ traces σ → returns (snr_spectra (heap σ !!! r))) →
      returns (snr σ threshold max_low_freq min_high_freq bandwidth)).
Proof.
  intros Hin Hspec Hwalk Hnone.
  assert (Hscan : corner_scan freqs sig noise threshold max_low_freq min_high_freq = Ok None).
  { rewrite (corner_scan_last _ _ _ _ _ _ _ Hwalk).
    destruct Hnone as [Hlows| ->]; [|done].
    unfold candidate_pairs. by rewrite Hlows. }
  assert (Hout : snr_trace threshold max_low_freq min_high_freq (heap σ !!! tr) = Ok None).
  { unfold snr_trace. by rewrite Hspec. }
  split_and!.
  - destruct (snr_finish_None_Ok σ tr Hin) as (before & after & Hsplit & Hnot & Hfin).
    exists before, after. split_and!; [done..|].
    rewrite snr_body_trace, Hout. exact Hfin.
  - intros bandwidth σ' Hnd Hrun. unfold snr in Hrun.
    destruct (for_each_snr_distinct _ _ _ (traces σ) [] σ σ' Hrun)
      as (Ht & Hl & _ & _ & Hsame); [done..|].
    cbn in Ht. split_and!; [|by apply Hsame; right|done..].
    rewrite Ht, elem_of_filter_bool. unfold passes. rewrite Hout. by intros [_ ?].
  - intros bandwidth LS Hnd Hall. by apply snr_returns.
Qed.

Lemma walk_inside_stays `{!ArithLaws A} sig noise threshold freqs : ∀ idx s s',
  have_low s = true →
  (∀ i x y, (idx ≤ i < idx + length freqs)%nat →
     sig !! i = Some x → noise !! i = Some y → fle threshold (fdiv x y) = true) →
  walk sig noise threshold idx freqs s = Ok s' → s' = s.
Proof.
  induction freqs as [|freq freqs IH]; intros idx s s' Hin Hall Hw; cbn in *.
  - by injection Hw as <-.
  - apply bind_Ok in Hw as (s1 & Hst & Hw).
    assert (s1 = s) as ->.
    { unfold walk_step in Hst.
      apply bind_Ok in Hst as (x & Hx & Hst). apply bind_Ok in Hst as (y & Hy & Hst).
      unfold index in Hx, Hy.
      destruct (sig !! idx) as [x'|] eqn:Hsx; [injection Hx as ->|done].
      destruct (noise !! idx) as [y'|] eqn:Hny; [injection Hy as ->|done].
      rewrite Hin in Hst.
      rewrite (fle_not_flt _ _ (Hall idx x y ltac:(lia) Hsx Hny)) in Hst.
      by injection Hst as <-. }
    apply (IH (S idx) s s' Hin); [|done].
    intros i x y Hi. apply Hall. lia.
Qed.

(** C6. The walk ends inside a band exactly when it holds one more low than
    highs; the maximum of the grid is then appended as the last high.  When
    the ratio is at or above the threshold at every bin, the only candidate
    pair is the first frequency of the grid with its maximum. *)
Theorem snr_open_band_closed_at_max `{!ArithLaws A} (threshold : A) freqs sig noise s :
  walk sig noise threshold 0 freqs walk_init = Ok s →
  (length (lows s) = S (length (highs s)) ↔ have_low s = true)
  ∧ (have_low s = true →
       ∃ m, pymax freqs = Ok m ∧ close_band freqs (lows s) (highs s) = Ok (highs s ++ [m]))
  ∧ (have_low s = false → close_band freqs (lows s) (highs s) = Ok (highs s))
  ∧ (∀ first rest,
       freqs = first :: rest →
       (∀ idx x y, (idx < length freqs)%nat →
          sig !! idx = Some x → noise !! idx = Some y → fle threshold (fdiv x y) = true) →
       ∃ m, pymax freqs = Ok m
            ∧ lows s = [first]
            ∧ close_band freqs (lows s) (highs s) = Ok [m]
            ∧ candidate_pairs freqs s = [(first, m)]).
Proof.
  intros Hwalk.
  assert (Hb : balanced s) by (eapply walk_balanced; [done|apply walk_init_balanced]).
  split_and!.
  - unfold balanced in Hb. destruct (have_low s); split; (done || lia).
  - intros Hin.
    assert (Hne : freqs ≠ []).
    { eapply walk_lows_grid; [done|]. unfold balanced in Hb. rewrite Hin in Hb.
      destruct (lows s); [cbn in Hb; lia|done]. }
    destruct (pymax_Ok freqs Hne) as [m Hm]. exists m. split; [done|].
    destruct (close_band_closed freqs s Hb Hne) as [-> _].
    unfold closed_highs, max_freq. by rewrite Hin, Hm.
  - intros Hout. apply close_band_idle. unfold balanced in Hb. rewrite Hout in Hb. lia.
  - intros first rest -> Hall. cbn in Hwalk.
    apply bind_Ok in Hwalk as (s1 & Hst & Hwalk).
    assert (s1 = WalkState [first] [] true) as ->.
    { unfold walk_step in Hst.
      apply bind_Ok in Hst as (x & Hx & Hst). apply bind_Ok in Hst as (y & Hy & Hst).
      unfold index in Hx, Hy.
      destruct (sig !! 0%nat) as [x'|] eqn:Hsx; [injection Hx as ->|done].
      destruct (noise !! 0%nat) as [y'|] eqn:Hny; [injection Hy as ->|done].
      cbn in Hst. rewrite (Hall 0%nat x y) in Hst; [|cbn; lia|done..].
      by injection Hst as <-. }
    apply walk_inside_stays in Hwalk as ->; [|done|].
    2:{ intros i x y Hi. apply Hall. cbn. lia. }
    destruct (pymax_Ok (first :: rest)) as [m Hm]; [done|].
    exists m. unfold candidate_pairs, closed_highs, max_freq, close_band.
    rewrite Hm. cbn [lows highs have_low]. split_and!; [done..| |done].
    case_decide as Hlen; [done|]. cbn in Hlen. lia.
Qed.
End ScanClaims.

(** ** Whole runs of the pickers *)

Section RunClaims.
Context {A : Type} {HA : Arith A} {L : SignalLib A}.
Implicit Types (σ : State A) (h : gmap ref (Trace A)) (tr r : ref).


(** C10. The [bandwidth] argument of [snr] plays no part in the result: the
    smoothing is always called with the coefficient 20. *)
Theorem snr_ignores_bandwidth
    (threshold max_low_freq min_high_freq bandwidth bandwidth' : A) σ :
  snr σ threshold max_low_freq min_high_freq bandwidth
  = snr σ threshold max_low_freq min_high_freq bandwidth'
  ∧ ∀ (trace : Trace A) (nfft : Z) (spec freqs : list A),
      fft_smooth trace nfft = Ok (spec, freqs) →
      spec = konno_ohmachi_smoothing
               ((λ x, fdiv x (of_int nfft)) <$> rfft_abs (data trace) nfft)
               freqs (of_int 20).
Proof.
  split; [reflexivity|].
  intros trace nfft spec freqs (d & _ & _ & ->)%fft_smooth_freqs. reflexivity.
Qed.


Lemma with_parameters_twice (t : Trace A) (key : string) (p : gmap string (pyval A)) :
  with_parameters (with_parameters t key p) key p = with_parameters t key p.
Proof. unfold with_parameters. cbn. by rewrite insert_insert_eq. Qed.

Lemma constant_body_Ok (cf_config : gmap string (gmap string (pyval A)))
    (c : gmap string (pyval A)) (highpass lowpass : pyval A) σ tr :
  cf_config !! "constant" = Some c →
  c !! "highpass" = Some highpass →
  c !! "lowpass" = Some lowpass →
  constant_body cf_config σ tr =
  Ok (mkState (_update_params (heap σ) tr "corner_frequencies"
                 (constant_result highpass lowpass))
        (traces σ) (log σ)).
Proof.
  intros Hc Hhp Hlp. unfold constant_body, getitem. rewrite Hc. cbn.
  by rewrite Hhp, Hlp.
Qed.

Lemma for_each_constant (cf_config : gmap string (gmap string (pyval A)))
    (c : gmap string (pyval A)) (highpass lowpass : pyval A) :
  cf_config !! "constant" = Some c →
  c !! "highpass" = Some highpass →
  c !! "lowpass" = Some lowpass →
  ∀ snapshot σ,
  ∃ σ', for_each (constant_body cf_config) snapshot σ = Ok σ'
        ∧ traces σ' = traces σ
        ∧ log σ' = log σ
        ∧ (∀ r, r ∈ snapshot →
             heap σ' !! r = Some (with_parameters (heap σ !!! r) "corner_frequencies"
                                    (constant_result highpass lowpass)))
        ∧ (∀ r, r ∉ snapshot → heap σ' !! r = heap σ !! r).
Proof.
  intros Hc Hhp Hlp. induction snapshot as [|tr rest IH]; intros σ; cbn.
  { exists σ. split_and!; [done..| |done]. intros r Hr. by apply elem_of_nil in Hr. }
  rewrite (constant_body_Ok _ _ _ _ σ tr Hc Hhp Hlp). cbn.
  set (σ1 := mkState _ (traces σ) (log σ)).
  destruct (IH σ1) as (σ' & Hrun & Ht & Hl & Hin & Hout).
  exists σ'. split_and!; [done..| |].
  - intros r Hr. destruct (decide (r ∈ rest)) as [Hrest|Hrest].
    + rewrite (Hin r Hrest). f_equal. subst σ1. cbn.
      destruct (decide (r = tr)) as [->|Hne].
      * by rewrite update_params_same, with_parameters_twice.
      * by rewrite update_params_other_total.
    + apply elem_of_cons in Hr as [->|Hr]; [|done].
      rewrite (Hout tr Hrest). subst σ1. cbn.
      unfold _update_params. by rewrite lookup_insert_eq.
  - intros r Hr. rewrite not_elem_of_cons in Hr. destruct Hr as [Hne Hr].
    rewrite (Hout r Hr). subst σ1. cbn. by apply update_params_other.
Qed.

(** C9. With [highpass] and [lowpass] configured, [constant] returns for
    every collection: it attaches [{type: "constant", highpass, lowpass}]
    with the two configured values to every record, removes none, logs
    nothing, and leaves an empty collection as it is. *)
Theorem constant_attaches_configured
    (CONFIG : gmap string (gmap string (gmap string (pyval A))))
    (cf_config : gmap string (gmap string (pyval A)))
    (c : gmap string (pyval A)) (highpass lowpass : pyval A) σ :
  CONFIG !! "corner_frequencies" = Some cf_config →
  cf_config !! "constant" = Some c →
  c !! "highpass" = Some highpass →
  c !! "lowpass" = Some lowpass →
  ∃ σ', constant CONFIG σ = Ok σ'
        ∧ traces σ' = traces σ
        ∧ log σ' = log σ
        ∧ (∀ r, r ∈ traces σ →
             corner_frequencies (heap σ') r = Some (constant_result highpass lowpass)
             ∧ heap σ' !! r = Some (with_parameters (heap σ !!! r) "corner_frequencies"
                                      (constant_result highpass lowpass)))
        ∧ (∀ r, r ∉ traces σ → heap σ' !! r = heap σ !! r)
        ∧ (traces σ = [] → σ' = σ).
Proof.
  intros Hcf Hc Hhp Hlp. unfold constant, getitem. rewrite Hcf. cbn.
  destruct (for_each_constant cf_config c highpass lowpass Hc Hhp Hlp (traces σ) σ)
    as (σ' & Hrun & Ht & Hl & Hin & Hout).
  exists σ'. split_and!; [done..| |done|].
  - intros r Hr. split; [|by apply Hin].
    unfold corner_frequencies. rewrite (lookup_total_correct _ _ _ (Hin r Hr)). cbn.
    by rewrite lookup_insert_eq.
  - intros Hempty. rewrite Hempty in Hrun. cbn in Hrun. by injection Hrun as <-.
Qed.
End RunClaims.

(** ** The size of the transform *)




(** ** The frequency grid *)






(** ** Division by a zero noise amplitude, on binary64 *)

Section IEEE.
Local Open Scope float_scope.
Import SpecFloat.

Lemma Prim2SF_zero : Prim2SF 0 = S754_zero false.
Proof. reflexivity. Qed.

(** The quotient by [+0]. *)
Lemma div_zero_spec (x : float) :
  Prim2SF (x / 0) =
  match Prim2SF x with
  | S754_nan | S754_zero _ => S754_nan
  | S754_infinity sx | S754_finite sx _ _ => S754_infinity sx
  end.
Proof.
  rewrite FloatAxioms.div_spec, Prim2SF_zero. unfold FloatAxioms.SF64div, SFdiv.
  destruct (Prim2SF x) as [?|[]| |[] ? ?]; reflexivity.
Qed.

Lemma SFcompare_refl (x : spec_float) : x ≠ S754_nan → SFcompare x x = Some Eq.
Proof.
  destruct x as [[]|[]| |[] m e]; cbn; try done; intros _;
    rewrite Z.compare_refl, Pos.compare_cont_refl; reflexivity.
Qed.

Lemma is_nan_spec (x : float) : is_nan x = true ↔ Prim2SF x = S754_nan.
Proof.
  unfold is_nan. rewrite FloatAxioms.eqb_spec. unfold SFeqb. split.
  - intros Hn. destruct (Prim2SF x) eqn:Hx; try done;
      by rewrite SFcompare_refl in Hn.
  - by intros ->.
Qed.

Lemma float_of_SF (x : float) (v : spec_float) (y : float) :
  Prim2SF x = v → Prim2SF y = v → x = y.
Proof. intros Hx Hy. apply FloatAxioms.Prim2SF_inj. congruence. Qed.

(** C3, as amended. The division is not guarded: where the smoothed noise
    amplitude is [+0] the ratio is the IEEE-754 quotient.  Nothing is raised.
    For a positive de-noised amplitude the ratio is [+infinity] and the bin
    meets every threshold that is not NaN: it opens a band, and never closes
    one.  For a de-noised amplitude that is zero or NaN the ratio is NaN,
    which is neither at or above nor below any threshold: the bin leaves the
    walk as it was.  For a negative one the ratio is [-infinity]. *)
Theorem zero_noise_bin_follows_ieee
    (sig noise : list float) (threshold x freq : float) (s : walk_state float) (idx : nat) :
  sig !! idx = Some x →
  noise !! idx = Some 0 →
  (∃ s', walk_step sig noise threshold s idx freq = Ok s')
  ∧ ((0 <? x) = true →
       x / 0 = infinity
       ∧ (is_nan threshold = false →
            walk_step sig noise threshold s idx freq =
            Ok (if have_low s then s else WalkState (lows s ++ [freq]) (highs s) true)))
  ∧ ((x =? 0) = true ∨ is_nan x = true →
       x / 0 = nan ∧ walk_step sig noise threshold s idx freq = Ok s)
  ∧ ((x <? 0) = true →
       x / 0 = neg_infinity
       ∧ ((neg_infinity <? threshold) = true →
            walk_step sig noise threshold s idx freq =
            Ok (if have_low s then WalkState (lows s) (highs s ++ [freq]) false else s))).
Proof.
  intros Hsig Hnoise.
  assert (Hstep : walk_step sig noise threshold s idx freq =
    if have_low s then
      if (x / 0 <? threshold) then Ok (WalkState (lows s) (highs s ++ [freq]) false) else Ok s
    else
      if (threshold <=? x / 0) then Ok (WalkState (lows s ++ [freq]) (highs s) true) else Ok s).
  { unfold walk_step, index. by rewrite Hsig, Hnoise. }
  pose proof (div_zero_spec x) as Hdiv.
  split_and!.
  - rewrite Hstep. destruct (have_low s); [destruct (_ <? _)|destruct (_ <=? _)]; eauto.
  - intros Hpos. rewrite FloatAxioms.ltb_spec, Prim2SF_zero in Hpos.
    assert (Hinf : x / 0 = infinity).
    { apply (float_of_SF _ (S754_infinity false)); [|reflexivity].
      rewrite Hdiv. by destruct (Prim2SF x) as [?|[]| |[] ? ?]. }
    split; [done|]. intros Hthr. rewrite Hstep, Hinf.
    assert (Hne : Prim2SF threshold ≠ S754_nan).
    { intros Hn%is_nan_spec. congruence. }
    rewrite FloatAxioms.ltb_spec, FloatAxioms.leb_spec.
    change (Prim2SF infinity) with (S754_infinity false).
    unfold SFltb, SFleb.
    by destruct (Prim2SF threshold) as [?|[]| |[] ? ?]; destruct (have_low s).
  - intros Hzero.
    assert (Hnan : x / 0 = nan).
    { apply (float_of_SF _ S754_nan); [|reflexivity]. rewrite Hdiv.
      destruct Hzero as [Hz|Hn].
      - rewrite FloatAxioms.eqb_spec, Prim2SF_zero in Hz.
        by destruct (Prim2SF x) as [?|[]| |[] ? ?].
      - apply is_nan_spec in Hn. by rewrite Hn. }
    split; [done|]. rewrite Hstep, Hnan.
    rewrite FloatAxioms.ltb_spec, FloatAxioms.leb_spec.
    change (Prim2SF nan) with S754_nan. unfold SFltb, SFleb. cbn.
    destruct (Prim2SF threshold); by destruct (have_low s).
  - intros Hneg. rewrite FloatAxioms.ltb_spec, Prim2SF_zero in Hneg.
    assert (Hinf : x / 0 = neg_infinity).
    { apply (float_of_SF _ (S754_infinity true)); [|reflexivity].
      rewrite Hdiv. by destruct (Prim2SF x) as [?|[]| |[] ? ?]. }
    split; [done|]. intros Hthr. rewrite Hstep, Hinf.
    rewrite FloatAxioms.ltb_spec in Hthr |- *. rewrite FloatAxioms.leb_spec.
    change (Prim2SF neg_infinity) with (S754_infinity true) in *.
    unfold SFltb, SFleb in *.
    by destruct (Prim2SF threshold) as [?|[]| |[] ? ?]; destruct (have_low s).
Qed.
End IEEE.

(** ** The scenario of the specification, on binary64 *)

Section Scenario.
Local Open Scope float_scope.


(** C5. With the noise curve at 1.0 over the 11 bins 0.0, 0.1, ..., 1.0, the
    signal-minus-noise curve at 0.0, 0.0, 5.0 (five times), 0.0 (four times),
    threshold 3.0, [max_low_freq] 0.3 and [min_high_freq] 0.5, the walk finds
    the low corner 0.2 and the high corner 0.7, the scan selects this pair,
    and [{type: "snr", highpass: 0.2, lowpass: 0.7}] is attached to the
    record, which stays in the stream. *)
Theorem snr_scenario_selects_02_07 (L : SignalLib float) (σ : State float) (tr : ref) :
  isub scenario_signal scenario_noise = Ok scenario_denoised
  ∧ walk scenario_denoised scenario_noise 3.0 0 scenario_freqs walk_init
    = Ok (WalkState [0.2] [0.7] false)
  ∧ corner_scan scenario_freqs scenario_denoised scenario_noise 3.0 0.3 0.5
    = Ok (Some (0.2, 0.7))
  ∧ ∃ σ', snr_record scenario_freqs scenario_denoised scenario_noise 3.0 0.3 0.5 σ tr = Ok σ'
          ∧ traces σ' = traces σ
          ∧ log σ' = log σ
          ∧ ∃ cf, corner_frequencies (heap σ') tr = Some cf
                  ∧ cf !! "type" = Some (PStr "snr")
                  ∧ cf !! "highpass" = Some (PNum 0.2)
                  ∧ cf !! "lowpass" = Some (PNum 0.7)
                  ∧ dom cf = {["type"; "highpass"; "lowpass"]}.
Proof.
  assert (Hscan : corner_scan scenario_freqs scenario_denoised scenario_noise 3.0 0.3 0.5
                  = Ok (Some (0.2, 0.7))) by (vm_compute; reflexivity).
  split_and!; [vm_compute; reflexivity..|exact Hscan|].
  unfold snr_record. rewrite Hscan. cbn [mbind result_bind]. rewrite snr_finish_Some.
  eexists. split_and!; [reflexivity..|]. cbn [heap].
  exists (snr_result 0.2 0.7). split_and!.
  - apply corner_frequencies_update.
  - done.
  - done.
  - done.
  - unfold snr_result. rewrite !dom_insert_L, dom_empty_L. set_solver.
Qed.

(** C3, as stated, fails: a bin where the noise amplitude and the de-noised
    amplitude are both zero has the ratio NaN, does not meet the threshold
    and records no low corner; a record with this one bin is rejected. *)
Lemma zero_noise_bin_fails_threshold :
  [0] !! 0%nat = Some 0
  ∧ 0 / 0 = nan
  ∧ fle 3.0 (fdiv 0 0) = false
  ∧ walk_step [0] [0] 3.0 walk_init 0 0 = Ok walk_init
  ∧ corner_scan [0] [0] [0] 3.0 0.1 5.0 = Ok None.
Proof. split_and!; vm_compute; reflexivity. Qed.
End Scenario.

(** ** The statements above, on the small world *)

Section Examples.
Local Open Scope float_scope.
Local Existing Instance Demo.lib.

Lemma demo_lib_spec : SignalLibSpec float (L := Demo.lib).
Proof.
  split; [|done].
  intros d nfft. cbn. rewrite length_app, length_take, length_replicate, length_fmap. lia.
Qed.

Lemma NoDup_world : NoDup (traces Demo.world).
Proof. apply (bool_decide_unpack _). vm_compute. exact I. Qed.



Lemma snr_rejects_quietly_witness :
  1%nat ∈ traces Demo.world
  ∧ snr_spectra (heap Demo.world !!! 1%nat) = Ok ([0; 2], [0; 0], [0.5; 0.5])
  ∧ walk [0; 0] [0.5; 0.5] 3 0 [0; 2] walk_init = Ok walk_init
  ∧ (∃ before after,
      traces Demo.world = before ++ (1%nat :: after) ∧ (1%nat ∉ before)
      ∧ snr_body 3 2 0.5 Demo.world 1%nat
        = Ok (mkState (heap Demo.world) (before ++ after)
                (log Demo.world
                 ++ [mkLog "INFO" ("Removing trace: "
                                   +:+ trace_str (heap Demo.world !!! 1%nat)
                                   +:+ " (failed SNR check)")])))
  ∧ ∃ σ', snr Demo.world 3 2 0.5 20 = Ok σ'
          ∧ (1%nat ∉ traces σ')
          ∧ log σ' = [mkLog "INFO" "Removing trace: trace@10 (failed SNR check)"].
Proof.
  assert (Hin : 1%nat ∈ traces Demo.world) by (apply (bool_decide_unpack _); vm_compute; exact I).
  assert (Hspec : snr_spectra (heap Demo.world !!! 1%nat) = Ok ([0; 2], [0; 0], [0.5; 0.5]))
    by (vm_compute; reflexivity).
  assert (Hwalk : walk [0; 0] [0.5; 0.5] 3 0 [0; 2] walk_init = Ok walk_init)
    by (vm_compute; reflexivity).
  destruct (snr_rejects_quietly 3 2 0.5 Demo.world 1%nat _ _ _ _ Hin Hspec Hwalk)
    as (Hbody & Hrun & Hret); [left; reflexivity|].
  split_and!; [exact Hin|exact Hspec|exact Hwalk|exact Hbody|].
  destruct (Hret 20 demo_lib_spec NoDup_world) as [σ' Hσ'].
  { intros r Hr. vm_compute in Hr.
    repeat (apply elem_of_cons in Hr as [->|Hr]; [vm_compute; eexists; reflexivity|]).
    by apply elem_of_nil in Hr. }
  destruct (Hrun 20 σ' NoDup_world Hσ') as (Hgone & _ & _ & Hlog).
  exists σ'. split_and!; [exact Hσ'|exact Hgone|].
  rewrite Hlog. vm_compute. reflexivity.
Defined.

Lemma snr_open_band_closed_at_max_witness :
  walk [3.5; 3.5] [0.5; 0.5] 3 0 [0; 2] walk_init = Ok (WalkState [0] [] true)
  ∧ pymax [0; 2] = Ok 2
  ∧ close_band [0; 2] [0] [] = Ok [2]
  ∧ candidate_pairs [0; 2] (WalkState [0] [] true) = [(0, 2)].
Proof.
  assert (Hwalk : walk [3.5; 3.5] [0.5; 0.5] 3 0 [0; 2] walk_init = Ok (WalkState [0] [] true))
    by (vm_compute; reflexivity).
  destruct (snr_open_band_closed_at_max 3 _ _ _ _ Hwalk) as (_ & _ & _ & Hall).
  destruct (Hall 0 [2] eq_refl) as (m & Hm & _ & Hclose & Hpairs).
  { intros [|[|idx]] x y Hidx Hx Hy; cbn in Hidx; try lia;
      injection Hx as <-; injection Hy as <-; vm_compute; reflexivity. }
  assert (m = 2) as -> by (vm_compute in Hm; congruence).
  split_and!; [exact Hwalk|exact Hm|exact Hclose|exact Hpairs].
Defined.


Lemma constant_attaches_configured_witness :
  ∃ σ', constant Demo.CONFIG Demo.world = Ok σ'
        ∧ traces σ' = traces Demo.world
        ∧ ∀ r, r ∈ traces Demo.world →
            corner_frequencies (heap σ') r = Some (constant_result (PNum 0.08) (PNum 20)).
Proof.
  destruct (constant_attaches_configured Demo.CONFIG
              {[ "constant" := {[ "highpass" := PNum 0.08; "lowpass" := PNum 20 ]} ]}
              {[ "highpass" := PNum 0.08; "lowpass" := PNum 20 ]}
              (PNum 0.08) (PNum 20) Demo.world)
    as (σ' & Hrun & Htraces & _ & Hin & _); [vm_compute; reflexivity..|].
  exists σ'. split_and!; [exact Hrun|exact Htraces|].
  intros r Hr. apply Hin, Hr.
Defined.


Lemma zero_noise_bin_follows_ieee_witness :
  [7; 0] !! 1%nat = Some 0
  ∧ [0.25; 0] !! 1%nat = Some 0
  ∧ walk_step [7; 0] [0.25; 0] 3 (WalkState [0] [] true) 1 2 = Ok (WalkState [0] [] true)
  ∧ [7; 1] !! 1%nat = Some 1
  ∧ walk_step [7; 1] [0.25; 0] 3 walk_init 1 2 = Ok (WalkState [2] [] true).
Proof.
  destruct (zero_noise_bin_follows_ieee [7; 0] [0.25; 0] 3 0 2 (WalkState [0] [] true) 1
              eq_refl eq_refl) as (_ & _ & Hzero & _).
  destruct (zero_noise_bin_follows_ieee [7; 1] [0.25; 0] 3 1 2 walk_init 1
              eq_refl eq_refl) as (_ & Hpos & _ & _).
  destruct Hzero as [_ Hz]; [left; reflexivity|].
  destruct Hpos as [_ Hp]; [reflexivity|].
  split_and!; [reflexivity|reflexivity|exact Hz|reflexivity|exact (Hp eq_refl)].
Defined.
End Examples.

(** * Further properties of the pickers *)

(** ** The corner scan *)


Lemma interleave_snoc_low {T} (f : T) : ∀ los his : list T,
  length los = length his → interleave (los ++ [f]) his = interleave los his ++ [f].
Proof.
  induction los as [|l los IH]; intros [|h his] Hlen; cbn in *; try done.
  f_equal. f_equal. apply IH. lia.
Qed.

Lemma interleave_snoc_high {T} (f : T) : ∀ los his : list T,
  length los = S (length his) → interleave los (his ++ [f]) = interleave los his ++ [f].
Proof.
  induction los as [|l los IH]; intros [|h his] Hlen; cbn in *; try done.
  - destruct los; [done|cbn in Hlen; lia].
  - f_equal. f_equal. apply IH. lia.
Qed.

Lemma interleave_length {T} : ∀ los his : list T,
  (length los = length his ∨ length los = S (length his)) →
  length (interleave los his) = (length los + length his)%nat.
Proof.
  induction los as [|l los IH]; intros [|h his] Hlen; cbn in *; try lia.
  rewrite IH by lia. lia.
Qed.

Lemma snoc_decompose {T} (l : list T) : l ≠ [] → ∃ l' x, l = l' ++ [x].
Proof. induction l as [|x l _] using rev_ind; [done|]. intros _. by exists l, x. Qed.

Lemma sublist_StronglySorted {T} (R : relation T) (l1 l2 : list T) :
  sublist l1 l2 → StronglySorted R l2 → StronglySorted R l1.
Proof.
  induction 1 as [|x l1 l2 Hsub IH|x l1 l2 Hsub IH]; intros Hs.
  - done.
  - apply StronglySorted_inv in Hs as [Hs Hall]. constructor; [by apply IH|].
    rewrite Forall_forall in Hall |- *. intros y Hy. apply Hall.
    by eapply elem_of_sublist.
  - apply StronglySorted_inv in Hs as [Hs _]. by apply IH.
Qed.

Lemma interleave_pairs {T} (R : relation T) : ∀ los his : list T,
  StronglySorted R (interleave los his) →
  ∀ l h, (l, h) ∈ zip los his → R l h.
Proof.
  induction los as [|l0 los IH]; intros [|h0 his] Hs l h Hin; cbn in *;
    try by apply elem_of_nil in Hin.
  apply StronglySorted_inv in Hs as [Hs Hall].
  apply StronglySorted_inv in Hs as [Hs _].
  apply elem_of_cons in Hin as [[= -> ->]|Hin].
  - by apply Forall_cons in Hall as [? _].
  - by apply (IH his).
Qed.

Section ScanExtras.
Context {A : Type} {HA : Arith A}.
Implicit Types (freqs sig noise : list A) (s : walk_state A) (idx : nat).

Lemma pymax_elem_of freqs m : pymax freqs = Ok m → m ∈ freqs.
Proof.
  destruct freqs as [|x a]; [done|]. cbn. intros [= <-].
  assert (Hgen : ∀ l m0, fold_left (λ m y, if flt m y then y else m) l m0 ∈ m0 :: l).
  { induction l as [|y l IH]; intros m0; cbn; [by left|].
    specialize (IH (if flt m0 y then y else m0)).
    apply elem_of_cons in IH as [->|IH].
    - destruct (flt m0 y); [right; by left|by left].
    - right. by right. }
  apply Hgen.
Qed.

Lemma pymax_rising freqs : rising freqs → freqs ≠ [] → pymax freqs = Ok (default (of_int 0) (last freqs)).
Proof.
  destruct freqs as [|x a]; [done|]. intros Hr _. cbn [pymax]. f_equal.
  revert x Hr. induction a as [|y a IH]; intros x Hr; [done|].
  cbn [fold_left]. apply StronglySorted_inv in Hr as [Hr Hall].
  apply Forall_cons in Hall as [Hxy _]. rewrite Hxy.
  rewrite (IH y Hr). by rewrite last_cons_cons.
Qed.

Lemma walk_interleave sig noise threshold freqs : ∀ idx s s',
  balanced s →
  walk sig noise threshold idx freqs s = Ok s' →
  ∃ found, interleave (lows s') (highs s') = interleave (lows s) (highs s) ++ found
           ∧ sublist found freqs.
Proof.
  induction freqs as [|freq freqs IH]; intros idx s s' Hb Hw; cbn in Hw.
  - injection Hw as <-. exists []. by rewrite app_nil_r.
  - apply bind_Ok in Hw as (s1 & Hst & Hw).
    assert (Hb1 : balanced s1) by (by eapply walk_step_balanced).
    destruct (IH _ _ _ Hb1 Hw) as (found & Hfound & Hsub).
    unfold balanced in Hb.
    destruct (walk_step_cases _ _ _ _ _ _ _ Hst) as [->|[[Hl ->]|[Hl ->]]].
    + exists found. split; [done|]. by apply sublist_cons.
    + exists (freq :: found). cbn in Hfound. rewrite Hl in Hb.
      rewrite interleave_snoc_low in Hfound by lia.
      rewrite <- app_assoc in Hfound. split; [done|]. by apply sublist_skip.
    + exists (freq :: found). cbn in Hfound. rewrite Hl in Hb.
      rewrite interleave_snoc_high in Hfound by lia.
      rewrite <- app_assoc in Hfound. split; [done|]. by apply sublist_skip.
Qed.

Lemma walk_interleave_grid sig noise threshold freqs s :
  walk sig noise threshold 0 freqs walk_init = Ok s →
  sublist (interleave (lows s) (highs s)) freqs.
Proof.
  intros Hw. destruct (walk_interleave _ _ _ _ _ _ _ (walk_init_balanced) Hw)
    as (found & -> & Hsub). done.
Qed.

Lemma walk_corners_grid sig noise threshold freqs s :
  walk sig noise threshold 0 freqs walk_init = Ok s →
  (∀ x, x ∈ lows s → x ∈ freqs) ∧ (∀ x, x ∈ highs s → x ∈ freqs).
Proof.
  intros Hw.
  assert (Hgen : ∀ freqs idx s s', walk sig noise threshold idx freqs s = Ok s' →
    (∀ x, x ∈ lows s' → x ∈ lows s ∨ x ∈ freqs)
    ∧ (∀ x, x ∈ highs s' → x ∈ highs s ∨ x ∈ freqs)).
  { clear. induction freqs as [|freq freqs IH]; intros idx s s' Hw; cbn in Hw.
    - injection Hw as <-. split; intros x Hx; by left.
    - apply bind_Ok in Hw as (s1 & Hst & Hw). destruct (IH _ _ _ Hw) as [Hlo Hhi].
      destruct (walk_step_cases _ _ _ _ _ _ _ Hst) as [->|[[Hl ->]|[Hl ->]]]; cbn in *;
        split; intros x Hx;
        (destruct (Hlo x Hx) as [Hin|?] || destruct (Hhi x Hx) as [Hin|?]);
        try (right; by right); try (by left);
        apply elem_of_app in Hin as [?|Hin]; try (by left);
        apply list_elem_of_singleton in Hin as ->; right; by left. }
  destruct (Hgen _ _ _ _ Hw) as [Hlo Hhi]. split; intros x Hx.
  - destruct (Hlo x Hx) as [Hn|?]; [by apply elem_of_nil in Hn|done].
  - destruct (Hhi x Hx) as [Hn|?]; [by apply elem_of_nil in Hn|done].
Qed.
End ScanExtras.

Section ScanExtraTheorems.
Context {A : Type} {HA : Arith A}.
Implicit Types (freqs sig noise : list A) (s : walk_state A) (idx : nat).

Lemma corner_scan_walk freqs sig noise threshold max_low_freq min_high_freq r :
  corner_scan freqs sig noise threshold max_low_freq min_high_freq = Ok r →
  ∃ s, walk sig noise threshold 0 freqs walk_init = Ok s.
Proof. unfold corner_scan. intros (s & Hw & _)%bind_Ok. by exists s. Qed.

Lemma elem_of_candidate_pairs freqs sig noise threshold s low high :
  walk sig noise threshold 0 freqs walk_init = Ok s →
  (low, high) ∈ candidate_pairs freqs s → low ∈ freqs ∧ high ∈ freqs.
Proof.
  intros Hw Hin. destruct (walk_corners_grid _ _ _ _ _ Hw) as [Hlo Hhi].
  unfold candidate_pairs in Hin. split.
  - apply Hlo. by eapply elem_of_zip_l.
  - apply elem_of_zip_r in Hin. unfold closed_highs, max_freq in Hin.
    destruct (have_low s); [|by apply Hhi].
    apply elem_of_app in Hin as [?|Hin]; [by apply Hhi|].
    destruct (pymax freqs) as [m|] eqn:Hm; [|by apply elem_of_nil in Hin].
    apply list_elem_of_singleton in Hin as ->. by apply pymax_elem_of.
Qed.

(** X1. The corners the scan returns are frequencies of the grid, and they
    meet the two band constraints. *)
Theorem corner_scan_corners_on_grid
    freqs sig noise (threshold max_low_freq min_high_freq low high : A) :
  corner_scan freqs sig noise threshold max_low_freq min_high_freq = Ok (Some (low, high)) →
  low ∈ freqs ∧ high ∈ freqs
  ∧ fle low max_low_freq = true ∧ flt min_high_freq high = true.
Proof.
  intros Hscan. destruct (corner_scan_walk _ _ _ _ _ _ _ Hscan) as [s Hw].
  rewrite (corner_scan_last _ _ _ _ _ _ _ Hw) in Hscan. injection Hscan as Hlast.
  apply last_Some_elem_of, elem_of_filter_bool in Hlast as [Hin Hok].
  destruct (elem_of_candidate_pairs _ _ _ _ _ _ _ Hw Hin) as [Hlo Hhi].
  unfold pair_ok in Hok. cbn in Hok. apply andb_true_iff in Hok as [? ?]. done.
Qed.

(** X2. The candidate corners, listed low, high, low, high, ... as the walk
    finds them, are a subsequence of the grid: lows and highs alternate and
    keep the order of the grid, and together they are no more than the
    bins. *)
Theorem walk_corners_alternate freqs sig noise (threshold : A) s :
  walk sig noise threshold 0 freqs walk_init = Ok s →
  sublist (interleave (lows s) (highs s)) freqs
  ∧ length (interleave (lows s) (highs s)) = (length (lows s) + length (highs s))%nat
  ∧ (length (lows s) + length (highs s) ≤ length freqs)%nat.
Proof.
  intros Hw. pose proof (walk_interleave_grid _ _ _ _ _ Hw) as Hsub.
  assert (Hb : balanced s) by (eapply walk_balanced; [done|apply walk_init_balanced]).
  assert (Hlen : length (interleave (lows s) (highs s))
                 = (length (lows s) + length (highs s))%nat).
  { apply interleave_length. unfold balanced in Hb. destruct (have_low s); lia. }
  split_and!; [done..|]. rewrite <- Hlen. by apply sublist_length.
Qed.

Lemma rising_last_above freqs (x m : A) :
  rising freqs → x ∈ freqs → last freqs = Some m → flt x m = true ∨ x = m.
Proof.
  intros Hr Hx Hm. apply list_elem_of_split in Hx as (l1 & l2 & ->).
  apply StronglySorted_app_1_r in Hr. apply StronglySorted_inv in Hr as [_ Hall].
  rewrite last_app_cons in Hm. destruct l2 as [|y l2].
  - right. cbn in Hm. congruence.
  - left. rewrite last_cons_cons in Hm.
    apply last_Some_elem_of in Hm. rewrite Forall_forall in Hall. by apply Hall.
Qed.

(** X3. On a grid that rises, no candidate pair is inverted: the low corner
    is below the high corner, or, for a band that opens at the last bin and
    is closed at the maximum, equal to it. *)
Theorem candidate_pairs_ordered freqs sig noise (threshold : A) s :
  rising freqs →
  walk sig noise threshold 0 freqs walk_init = Ok s →
  ∀ low high, (low, high) ∈ candidate_pairs freqs s →
    flt low high = true ∨ (low = high ∧ last freqs = Some high).
Proof.
  intros Hr Hw low high Hin.
  pose proof (walk_interleave_grid _ _ _ _ _ Hw) as Hsub.
  assert (Hb : balanced s) by (eapply walk_balanced; [done|apply walk_init_balanced]).
  assert (Hs : StronglySorted (λ a b, flt a b = true) (interleave (lows s) (highs s)))
    by (by eapply sublist_StronglySorted).
  unfold candidate_pairs, closed_highs in Hin. unfold balanced in Hb.
  destruct (have_low s) eqn:Hin_band.
  - destruct (snoc_decompose (lows s)) as (los0 & l0 & Hlows).
    { intros Hnil. rewrite Hnil in Hb. cbn in Hb. lia. }
    rewrite Hlows in Hb, Hs, Hin. rewrite length_app in Hb. cbn in Hb.
    rewrite interleave_snoc_low in Hs by lia.
    apply StronglySorted_app_1_l in Hs.
    rewrite zip_with_app in Hin by lia.
    apply elem_of_app in Hin as [Hin|Hin].
    + left. exact (interleave_pairs (λ a b, flt a b = true) _ _ Hs _ _ Hin).
    + assert (Hl0 : l0 ∈ freqs).
      { destruct (walk_corners_grid _ _ _ _ _ Hw) as [Hlo _]. apply Hlo.
        rewrite Hlows, elem_of_app. right. by left. }
      assert (Hne : freqs ≠ []) by (intros ->; by apply elem_of_nil in Hl0).
      unfold max_freq in Hin. rewrite (pymax_rising _ Hr Hne) in Hin.
      destruct (last freqs) as [m|] eqn:Hlast.
      2:{ apply last_None in Hlast. done. }
      cbn in Hin. apply list_elem_of_singleton in Hin. injection Hin as -> ->.
      destruct (rising_last_above _ _ _ Hr Hl0 Hlast) as [? | ->]; [by left|by right].
  - left. exact (interleave_pairs (λ a b, flt a b = true) _ _ Hs _ _ Hin).
Qed.

(** The walk when no bin meets the threshold. *)
Lemma walk_outside_stays sig noise threshold freqs : ∀ idx s,
  have_low s = false →
  (idx + length freqs ≤ length sig)%nat →
  (idx + length freqs ≤ length noise)%nat →
  (∀ i x y, (idx ≤ i < idx + length freqs)%nat →
     sig !! i = Some x → noise !! i = Some y → fle threshold (fdiv x y) = false) →
  walk sig noise threshold idx freqs s = Ok s.
Proof.
  induction freqs as [|freq freqs IH]; intros idx s Hout Hs Hn Hall; cbn in *; [done|].
  destruct (index_Ok sig idx) as (x & Hx & Hsx); [lia|].
  destruct (index_Ok noise idx) as (y & Hy & Hny); [lia|].
  unfold walk_step. rewrite Hx, Hy. cbn. rewrite Hout.
  rewrite (Hall idx x y) by (done || lia). cbn.
  apply IH; [done|lia..|]. intros i x' y' Hi. apply Hall. lia.
Qed.

(** X4. When the ratio is below the threshold at every bin, the walk finds
    no corner, the scan gives no band, and the loop body goes the way of
    removal. *)
Theorem corner_scan_nothing_above_threshold
    {L : SignalLib A} freqs sig noise (threshold max_low_freq min_high_freq : A) :
  (length freqs ≤ length sig)%nat →
  (length freqs ≤ length noise)%nat →
  (∀ idx x y, (idx < length freqs)%nat →
     sig !! idx = Some x → noise !! idx = Some y → fle threshold (fdiv x y) = false) →
  walk sig noise threshold 0 freqs walk_init = Ok walk_init
  ∧ corner_scan freqs sig noise threshold max_low_freq min_high_freq = Ok None
  ∧ ∀ (σ : State A) (tr : ref),
      snr_record freqs sig noise threshold max_low_freq min_high_freq σ tr
      = snr_finish σ tr None.
Proof.
  intros Hs Hn Hall.
  assert (Hw : walk sig noise threshold 0 freqs walk_init = Ok walk_init).
  { apply walk_outside_stays; [done|cbn; lia..|]. intros i x y Hi. apply Hall. lia. }
  assert (Hscan : corner_scan freqs sig noise threshold max_low_freq min_high_freq = Ok None).
  { by rewrite (corner_scan_last _ _ _ _ _ _ _ Hw). }
  split_and!; [done..|]. intros σ tr. unfold snr_record. by rewrite Hscan.
Qed.

(** X5. The closing of the band and the validity loop that the source
    repeats change nothing.  Once a low corner is found, the first closing
    returns as many highs as there are lows, the second closing appends
    nothing to them, and the scan gives what the validity loop gives on
    them. *)
Theorem corner_scan_repeat_inert
    freqs sig noise (threshold max_low_freq min_high_freq : A) s :
  walk sig noise threshold 0 freqs walk_init = Ok s →
  lows s ≠ [] →
  ∃ highs1,
    close_band freqs (lows s) (highs s) = Ok highs1
    ∧ length highs1 = length (lows s)
    ∧ close_band freqs (lows s) highs1 = Ok highs1
    ∧ corner_scan freqs sig noise threshold max_low_freq min_high_freq
      = check_pairs max_low_freq min_high_freq highs1 0 (lows s) None.
Proof.
  intros Hw Hlows.
  assert (Hb : balanced s) by (eapply walk_balanced; [done|apply walk_init_balanced]).
  assert (Hne : freqs ≠ []) by (by eapply walk_lows_grid).
  destruct (close_band_closed freqs s Hb Hne) as [Hc Hlen].
  exists (closed_highs freqs s).
  pose proof (close_band_idle freqs (lows s) (closed_highs freqs s) Hlen) as Hidle.
  split_and!; [done..|].
  unfold corner_scan. rewrite Hw. cbn [mbind result_bind].
  destruct (lows s) as [|lo los] eqn:Heq; [done|]. rewrite <- Heq in *.
  rewrite Hc. cbn [mbind result_bind].
  rewrite (check_pairs_last _ _ _ (lows s) 0 None) by lia.
  cbn [mbind result_bind]. rewrite Hidle. cbn [mbind result_bind].
  by rewrite (check_pairs_last _ _ _ (lows s) 0 None) by lia.
Qed.

Lemma walk_short sig noise threshold freqs : ∀ idx s,
  (length sig < idx + length freqs ∨ length noise < idx + length freqs)%nat →
  (idx ≤ length sig)%nat → (idx ≤ length noise)%nat →
  walk sig noise threshold idx freqs s = Raise IndexError.
Proof.
  induction freqs as [|freq freqs IH]; intros idx s Hshort Hs Hn; cbn in *; [lia|].
  destruct (decide (idx < length sig)%nat) as [Hsi|Hsi].
  - destruct (decide (idx < length noise)%nat) as [Hni|Hni].
    + destruct (walk_step_returns sig noise threshold s idx freq Hsi Hni) as [s1 ->]. cbn.
      apply IH; lia.
    + destruct (index_Ok sig idx Hsi) as (x & Hx & _).
      unfold walk_step, index. unfold index in Hx. 
      destruct (sig !! idx); [|done]. cbn.
      rewrite (lookup_ge_None_2 noise idx) by lia. done.
  - unfold walk_step, index. rewrite (lookup_ge_None_2 sig idx) by lia. done.
Qed.

(** X6. The scan stays within its arrays exactly when the two spectra are at
    least as long as the grid: then it returns; with a spectrum shorter than
    the grid it raises IndexError. *)
Theorem corner_scan_bounds
    freqs sig noise (threshold max_low_freq min_high_freq : A) :
  ((length freqs ≤ length sig)%nat → (length freqs ≤ length noise)%nat →
     returns (corner_scan freqs sig noise threshold max_low_freq min_high_freq))
  ∧ ((length sig < length freqs ∨ length noise < length freqs)%nat →
     corner_scan freqs sig noise threshold max_low_freq min_high_freq = Raise IndexError).
Proof.
  split.
  - intros Hs Hn.
    destruct (walk_returns sig noise threshold freqs 0 walk_init) as [s Hw]; [cbn; lia..|].
    rewrite (corner_scan_last _ _ _ _ _ _ _ Hw). by eexists.
  - intros Hshort. unfold corner_scan.
    rewrite walk_short; [done|cbn; lia|lia..].
Qed.
End ScanExtraTheorems.

(** ** Runs: the log, and what is written *)

Section LoopFacts.
Context {A : Type}.
Implicit Types (σ : State A) (tr r : ref).

(** A relation every turn of a loop keeps is kept by the loop. *)
Lemma for_each_preorder (R : relation (State A)) `{!Reflexive R, !Transitive R}
    (body : State A → ref → result (State A)) :
  (∀ σ tr σ1, body σ tr = Ok σ1 → R σ σ1) →
  ∀ snapshot σ σ', for_each body snapshot σ = Ok σ' → R σ σ'.
Proof.
  intros Hbody. induction snapshot as [|tr rest IH]; intros σ σ' Hrun; cbn in Hrun.
  - by injection Hrun as <-.
  - apply bind_Ok in Hrun as (σ1 & Hb & Hrun). etrans; [by eapply Hbody|by apply IH].
Qed.

(** A loop whose turns write to their own trace only leaves the objects
    outside the snapshot alone. *)
Lemma for_each_frame (body : State A → ref → result (State A)) :
  (∀ σ tr σ1, body σ tr = Ok σ1 → ∀ r, r ≠ tr → heap σ1 !! r = heap σ !! r) →
  ∀ snapshot σ σ', for_each body snapshot σ = Ok σ' →
  ∀ r, r ∉ snapshot → heap σ' !! r = heap σ !! r.
Proof.
  intros Hbody. induction snapshot as [|tr rest IH]; intros σ σ' Hrun r Hr; cbn in Hrun.
  - by injection Hrun as <-.
  - apply bind_Ok in Hrun as (σ1 & Hb & Hrun). apply not_elem_of_cons in Hr as [Hne Hr].
    rewrite (IH _ _ Hrun r Hr). by eapply Hbody.
Qed.
End LoopFacts.

Section StreamExtras.
Context {A : Type} {HA : Arith A} {L : SignalLib A}.
Implicit Types (σ : State A) (h : gmap ref (Trace A)) (tr r : ref).

Lemma same_but_corners_refl (t : Trace A) : same_but_corners t t.
Proof. by repeat split. Qed.

Lemma same_but_corners_trans (t1 t2 t3 : Trace A) :
  same_but_corners t1 t2 → same_but_corners t2 t3 → same_but_corners t1 t3.
Proof.
  intros (? & ? & ? & ? & Hk) (? & ? & ? & ? & Hk'). repeat split; try congruence.
  intros key Hkey. rewrite Hk' by done. by apply Hk.
Qed.

Lemma update_params_same_but_corners h tr p r :
  same_but_corners (h !!! r) (_update_params h tr "corner_frequencies" p !!! r).
Proof.
  destruct (decide (r = tr)) as [->|Hne].
  - rewrite update_params_same. unfold with_parameters. repeat split; cbn.
    intros key Hkey. by rewrite lookup_insert_ne.
  - rewrite update_params_other_total by done. apply same_but_corners_refl.
Qed.

(** What one turn of [snr]'s loop does to the log and to the stream. *)
Lemma snr_body_ledger threshold max_low_freq min_high_freq σ tr σ1 :
  snr_body threshold max_low_freq min_high_freq σ tr = Ok σ1 →
  ∃ new, log σ1 = log σ ++ new
         ∧ length (traces σ) = (length (traces σ1) + length new)%nat
         ∧ Forall (λ rec, levelname rec = "INFO"
                          ∧ ∃ t, msg rec = removal_message t) new.
Proof.
  intros Hb. destruct (snr_body_inv _ _ _ _ _ _ Hb)
    as [(low & high & _ & ->)|(_ & l1 & l2 & Htr & _ & ->)]; cbn.
  - exists []. rewrite app_nil_r. split_and!; [done|cbn; lia|constructor].
  - eexists [_]. split_and!; [done| |].
    + rewrite Htr, !length_app. cbn. lia.
    + constructor; [|constructor]. cbn. split; [done|]. by eexists.
Qed.

(** X7. Every removal is logged and nothing else is: when [snr] returns, the
    log is the old log followed by one INFO record, of the removal form, for
    each member the stream has lost.  This holds for every stream, also one
    that holds the same trace object more than once. *)
Theorem snr_removals_are_logged
    (threshold max_low_freq min_high_freq bandwidth : A) σ σ' :
  snr σ threshold max_low_freq min_high_freq bandwidth = Ok σ' →
  ∃ new, log σ' = log σ ++ new
         ∧ length (traces σ) = (length (traces σ') + length new)%nat
         ∧ Forall (λ rec, levelname rec = "INFO"
                          ∧ ∃ t, msg rec = removal_message t) new.
Proof.
  unfold snr. generalize (traces σ) at 1. intros snapshot. revert σ.
  induction snapshot as [|tr rest IH]; intros σ Hrun; cbn in Hrun.
  - injection Hrun as <-. exists []. rewrite app_nil_r.
    split_and!; [done|cbn; lia|constructor].
  - apply bind_Ok in Hrun as (σ1 & Hb & Hrun).
    destruct (snr_body_ledger _ _ _ _ _ _ Hb) as (new1 & Hl1 & Hn1 & Hf1).
    destruct (IH _ Hrun) as (new2 & Hl2 & Hn2 & Hf2).
    exists (new1 ++ new2). split_and!.
    + by rewrite Hl2, Hl1, app_assoc.
    + rewrite length_app. lia.
    + by apply Forall_app.
Qed.

Lemma snr_body_same_but_corners threshold max_low_freq min_high_freq σ tr σ1 :
  snr_body threshold max_low_freq min_high_freq σ tr = Ok σ1 →
  (∀ r, same_but_corners (heap σ !!! r) (heap σ1 !!! r))
  ∧ (∀ r, r ≠ tr → heap σ1 !! r = heap σ !! r).
Proof.
  intros Hb. destruct (snr_body_inv _ _ _ _ _ _ Hb)
    as [(low & high & _ & ->)|(_ & l1 & l2 & _ & _ & ->)]; cbn.
  - split; intros r; [apply update_params_same_but_corners|].
    intros Hne. by apply update_params_other.
  - split; intros r; [apply same_but_corners_refl|done].
Qed.

Lemma constant_body_same_but_corners cf_config σ tr σ1 :
  constant_body cf_config σ tr = Ok σ1 →
  (∀ r, same_but_corners (heap σ !!! r) (heap σ1 !!! r))
  ∧ (∀ r, r ≠ tr → heap σ1 !! r = heap σ !! r)
  ∧ traces σ1 = traces σ ∧ log σ1 = log σ.
Proof.
  unfold constant_body. intros Hb.
  apply bind_Ok in Hb as (c & _ & Hb). apply bind_Ok in Hb as (hp & _ & Hb).
  apply bind_Ok in Hb as (c' & _ & Hb). apply bind_Ok in Hb as (lp & _ & [= <-]). cbn.
  split_and!; [|intros r Hne; by apply update_params_other|done..].
  intros r. apply update_params_same_but_corners.
Qed.

#[local] Instance heaps_same_but_corners_refl : Reflexive heaps_same_but_corners.
Proof. intros σ r. apply same_but_corners_refl. Qed.

#[local] Instance heaps_same_but_corners_trans : Transitive heaps_same_but_corners.
Proof. intros σ1 σ2 σ3 H1 H2 r. by eapply same_but_corners_trans. Qed.

(** X8. The pickers write to one place only.  When [snr] or [constant]
    returns, every trace object has the samples, sampling rate, sample count,
    start time and every stage output other than ["corner_frequencies"] it
    had before, and the objects that are not members of the stream are
    untouched. *)
Theorem pickers_write_only_corner_frequencies :
  (∀ (threshold max_low_freq min_high_freq bandwidth : A) σ σ',
      snr σ threshold max_low_freq min_high_freq bandwidth = Ok σ' →
      (∀ r, same_but_corners (heap σ !!! r) (heap σ' !!! r))
      ∧ (∀ r, r ∉ traces σ → heap σ' !! r = heap σ !! r))
  ∧ (∀ (CONFIG : gmap string (gmap string (gmap string (pyval A)))) σ σ',
      constant CONFIG σ = Ok σ' →
      (∀ r, same_but_corners (heap σ !!! r) (heap σ' !!! r))
      ∧ (∀ r, r ∉ traces σ → heap σ' !! r = heap σ !! r)).
Proof.
  split.
  - intros threshold max_low_freq min_high_freq bandwidth σ σ' Hrun. unfold snr in Hrun.
    split.
    + apply (for_each_preorder heaps_same_but_corners _
               (λ σ0 tr0 σ1 Hb, proj1 (snr_body_same_but_corners _ _ _ _ _ _ Hb)) _ _ _ Hrun).
    + apply (for_each_frame _
               (λ σ0 tr0 σ1 Hb, proj2 (snr_body_same_but_corners _ _ _ _ _ _ Hb)) _ _ _ Hrun).
  - intros CONFIG σ σ' Hrun. unfold constant in Hrun.
    apply bind_Ok in Hrun as (cf & _ & Hrun). split.
    + apply (for_each_preorder heaps_same_but_corners _
               (λ σ0 tr0 σ1 Hb, proj1 (constant_body_same_but_corners _ _ _ _ Hb)) _ _ _ Hrun).
    + apply (for_each_frame _
               (λ σ0 tr0 σ1 Hb, proj1 (proj2 (constant_body_same_but_corners _ _ _ _ Hb)))
               _ _ _ Hrun).
Qed.
End StreamExtras.

(** ** Errors *)


Lemma getitem_Ok {V} (d : gmap string V) (key : string) (v : V) :
  getitem d key = Ok v ↔ d !! key = Some v.
Proof. unfold getitem. destruct (d !! key); split; congruence. Qed.

Section ErrorFacts.
Context {A : Type} {HA : Arith A} {L : SignalLib A}.
Implicit Types (σ : State A) (tr r : ref) (t : Trace A).










End ErrorFacts.

(** ** [constant] again *)

Section ConstantExtras.
Context {A : Type} {HA : Arith A} {L : SignalLib A}.
Implicit Types (σ : State A) (tr r : ref).

Lemma constant_body_keys (cf_config : gmap string (gmap string (pyval A))) σ tr σ1 :
  constant_body cf_config σ tr = Ok σ1 →
  ∃ c highpass lowpass,
    cf_config !! "constant" = Some c
    ∧ c !! "highpass" = Some highpass ∧ c !! "lowpass" = Some lowpass.
Proof.
  unfold constant_body. intros Hb.
  apply bind_Ok in Hb as (c & Hc%getitem_Ok & Hb).
  apply bind_Ok in Hb as (hp & Hhp%getitem_Ok & Hb).
  apply bind_Ok in Hb as (c' & Hc'%getitem_Ok & Hb).
  apply bind_Ok in Hb as (lp & Hlp%getitem_Ok & _).
  exists c, hp, lp. split_and!; [done..|]. congruence.
Qed.

Lemma State_eq σ σ' :
  heap σ = heap σ' → traces σ = traces σ' → log σ = log σ' → σ = σ'.
Proof. destruct σ, σ'. cbn. by intros -> -> ->. Qed.

(** X11. [constant] is idempotent: running it again on its own result, with
    the same configuration, returns that result unchanged. *)
Theorem constant_twice
    (CONFIG : gmap string (gmap string (gmap string (pyval A)))) σ σ' :
  constant CONFIG σ = Ok σ' → constant CONFIG σ' = Ok σ'.
Proof.
  unfold constant. intros Hrun.
  apply bind_Ok in Hrun as (cf & Hcf & Hrun). rewrite Hcf. cbn.
  destruct (traces σ) as [|tr rest] eqn:Htr.
  { cbn in Hrun. injection Hrun as <-. by rewrite Htr. }
  assert (Hkeys : ∃ c highpass lowpass,
    cf !! "constant" = Some c
    ∧ c !! "highpass" = Some highpass ∧ c !! "lowpass" = Some lowpass).
  { cbn in Hrun. apply bind_Ok in Hrun as (σ1 & Hb & _). by eapply constant_body_keys. }
  destruct Hkeys as (c & hp & lp & Hc & Hhp & Hlp). rewrite <- Htr in Hrun.
  destruct (for_each_constant cf c hp lp Hc Hhp Hlp (traces σ) σ)
    as (σ1 & Hrun1 & Ht1 & Hl1 & Hin1 & Hout1).
  assert (σ1 = σ') as -> by congruence.
  destruct (for_each_constant cf c hp lp Hc Hhp Hlp (traces σ') σ')
    as (σ2 & Hrun2 & Ht2 & Hl2 & Hin2 & Hout2).
  rewrite Hrun2. f_equal. apply State_eq; [|done..].
  apply map_eq. intros r. destruct (decide (r ∈ traces σ')) as [Hr|Hr].
  - rewrite (Hin2 r Hr). rewrite Ht1 in Hr.
    rewrite (lookup_total_correct _ _ _ (Hin1 r Hr)), with_parameters_twice.
    symmetry. by apply Hin1.
  - by apply Hout2.
Qed.

Lemma constant_body_Raises_constant (cf_config : gmap string (gmap string (pyval A))) σ tr :
  cf_config !! "constant" = None →
  constant_body cf_config σ tr = Raise (KeyError "constant").
Proof. intros Hnone. unfold constant_body, getitem. by rewrite Hnone. Qed.

Lemma constant_body_Raises_highpass (cf_config : gmap string (gmap string (pyval A)))
    (c : gmap string (pyval A)) σ tr :
  cf_config !! "constant" = Some c → c !! "highpass" = None →
  constant_body cf_config σ tr = Raise (KeyError "highpass").
Proof. intros Hc Hnone. unfold constant_body, getitem. rewrite Hc. cbn. by rewrite Hnone. Qed.

Lemma constant_body_Raises_lowpass (cf_config : gmap string (gmap string (pyval A)))
    (c : gmap string (pyval A)) σ tr :
  cf_config !! "constant" = Some c → is_Some (c !! "highpass") → c !! "lowpass" = None →
  constant_body cf_config σ tr = Raise (KeyError "lowpass").
Proof.
  intros Hc [hp Hhp] Hnone. unfold constant_body, getitem. rewrite Hc. cbn.
  rewrite Hhp. cbn. by rewrite Hnone.
Qed.

(** X12. What a broken configuration does to [constant].  Without
    ["corner_frequencies"] it raises KeyError for every stream, the empty one
    too.  With it, the entries below are looked up once per record: on an
    empty stream [constant] returns the stream as it is whatever is missing
    there, and on a stream with a member it raises KeyError for the first of
    ["constant"], ["highpass"], ["lowpass"] that is missing. *)
Theorem constant_missing_configuration
    (CONFIG : gmap string (gmap string (gmap string (pyval A)))) σ :
  (CONFIG !! "corner_frequencies" = None →
     constant CONFIG σ = Raise (KeyError "corner_frequencies"))
  ∧ (∀ cf, CONFIG !! "corner_frequencies" = Some cf →
       (traces σ = [] → constant CONFIG σ = Ok σ)
       ∧ (traces σ ≠ [] →
            (cf !! "constant" = None →
               constant CONFIG σ = Raise (KeyError "constant"))
            ∧ (∀ c, cf !! "constant" = Some c →
                 (c !! "highpass" = None →
                    constant CONFIG σ = Raise (KeyError "highpass"))
                 ∧ (is_Some (c !! "highpass") → c !! "lowpass" = None →
                      constant CONFIG σ = Raise (KeyError "lowpass"))))).
Proof.
  split.
  - intros Hnone. unfold constant, getitem. by rewrite Hnone.
  - intros cf Hcf. unfold constant, getitem. rewrite Hcf. cbn. split.
    + by intros ->.
    + intros Hne. destruct (traces σ) as [|tr rest]; [done|]. cbn [for_each]. split.
      * intros Hnone. rewrite constant_body_Raises_constant; done.
      * intros c Hc. split.
        -- intros Hnone. by rewrite (constant_body_Raises_highpass _ c).
        -- intros Hhp Hnone. by rewrite (constant_body_Raises_lowpass _ c).
Qed.
End ConstantExtras.

(** ** The grid in exact arithmetic *)





(** ** NaN among the parameters, on binary64 *)

Section NaNParameters.
Local Open Scope float_scope.
Import SpecFloat.

Lemma leb_nan_l (x y : float) : is_nan x = true → (x <=? y) = false.
Proof.
  intros Hx%is_nan_spec. rewrite FloatAxioms.leb_spec, Hx. reflexivity.
Qed.

Lemma leb_nan_r (x y : float) : is_nan y = true → (x <=? y) = false.
Proof.
  intros Hy%is_nan_spec. rewrite FloatAxioms.leb_spec, Hy.
  unfold SFleb. by destruct (Prim2SF x) as [?|[]| |[] ? ?].
Qed.

Lemma ltb_nan_l (x y : float) : is_nan x = true → (x <? y) = false.
Proof.
  intros Hx%is_nan_spec. rewrite FloatAxioms.ltb_spec, Hx. reflexivity.
Qed.

Lemma filter_none {T} (f : T → bool) (l : list T) :
  (∀ x, f x = false) → List.filter f l = [].
Proof. intros Hf. induction l as [|x l IH]; [done|]. cbn. by rewrite Hf. Qed.

(** X14. A NaN among the parameters rejects every record: with a NaN
    threshold no bin meets the threshold, and with a NaN [max_low_freq] or
    [min_high_freq] no candidate pair is valid, so the scan gives no band. *)
Theorem nan_parameter_rejects
    (freqs sig noise : list float) (threshold max_low_freq min_high_freq : float) :
  (length freqs ≤ length sig)%nat →
  (length freqs ≤ length noise)%nat →
  is_nan threshold = true ∨ is_nan max_low_freq = true ∨ is_nan min_high_freq = true →
  corner_scan freqs sig noise threshold max_low_freq min_high_freq = Ok None.
Proof.
  intros Hs Hn Hnan.
  destruct (walk_returns sig noise threshold freqs 0 walk_init) as [s Hw]; [cbn; lia..|].
  rewrite (corner_scan_last _ _ _ _ _ _ _ Hw).
  destruct Hnan as [Ht|[Hl|Hh]].
  - assert (Hw' : walk sig noise threshold 0 freqs walk_init = Ok walk_init).
    { apply walk_outside_stays; [done|cbn; lia..|].
      intros i x y _ _ _. cbn. by apply leb_nan_l. }
    assert (s = walk_init) as -> by congruence. done.
  - rewrite filter_none; [done|]. intros [lo hi]. unfold pair_ok. cbn.
    by rewrite leb_nan_r.
  - rewrite filter_none; [done|]. intros [lo hi]. unfold pair_ok. cbn.
    rewrite (ltb_nan_l min_high_freq hi Hh). apply andb_false_r.
Qed.
End NaNParameters.

(** ** The further properties, on the small worlds *)

Section MoreExamples.
Local Open Scope float_scope.
Local Existing Instance Demo.lib.

Lemma rising_grid : rising Demo.grid.
Proof. unfold rising, Demo.grid. repeat constructor. Qed.

Lemma corner_scan_corners_on_grid_witness :
  corner_scan Demo.grid Demo.bursty_signal Demo.bursty_noise 3 2 0.5 = Ok (Some (2, 3))
  ∧ 2 ∈ Demo.grid ∧ 3 ∈ Demo.grid
  ∧ fle 2 2 = true ∧ flt 0.5 3 = true.
Proof.
  assert (Hscan : corner_scan Demo.grid Demo.bursty_signal Demo.bursty_noise 3 2 0.5
                  = Ok (Some (2, 3))) by (vm_compute; reflexivity).
  split; [exact Hscan|].
  exact (corner_scan_corners_on_grid _ _ _ _ _ _ _ _ Hscan).
Defined.

Lemma walk_corners_alternate_witness :
  walk Demo.bursty_signal Demo.bursty_noise 3 0 Demo.grid walk_init = Ok Demo.bursty_walk
  ∧ sublist (interleave (lows Demo.bursty_walk) (highs Demo.bursty_walk)) Demo.grid
  ∧ interleave (lows Demo.bursty_walk) (highs Demo.bursty_walk) = [0; 1; 2; 3; 4].
Proof.
  assert (Hwalk : walk Demo.bursty_signal Demo.bursty_noise 3 0 Demo.grid walk_init
                  = Ok Demo.bursty_walk) by (vm_compute; reflexivity).
  destruct (walk_corners_alternate _ _ _ _ _ Hwalk) as [Hsub _].
  split_and!; [exact Hwalk|exact Hsub|reflexivity].
Defined.

Lemma candidate_pairs_ordered_witness :
  rising Demo.grid
  ∧ walk Demo.bursty_signal Demo.bursty_noise 3 0 Demo.grid walk_init = Ok Demo.bursty_walk
  ∧ (flt 2 3 = true ∨ (2 = 3 ∧ last Demo.grid = Some 3))
  ∧ (flt 4 4 = true ∨ (4 = 4 ∧ last Demo.grid = Some 4)).
Proof.
  assert (Hwalk : walk Demo.bursty_signal Demo.bursty_noise 3 0 Demo.grid walk_init
                  = Ok Demo.bursty_walk) by (vm_compute; reflexivity).
  pose proof (candidate_pairs_ordered _ _ _ _ _ rising_grid Hwalk) as Hord.
  assert (Hpairs : candidate_pairs Demo.grid Demo.bursty_walk = [(0, 1); (2, 3); (4, 4)])
    by (vm_compute; reflexivity).
  split_and!; [exact rising_grid|exact Hwalk| |].
  - apply Hord. rewrite Hpairs. right. left.
  - apply Hord. rewrite Hpairs. right. right. left.
Defined.

Lemma corner_scan_nothing_above_threshold_witness :
  walk [0; 0] [0.5; 0.5] 3 0 [0; 2] walk_init = Ok walk_init
  ∧ corner_scan [0; 0] [0; 0] [0.5; 0.5] 3 2 0.5 = Ok None.
Proof.
  destruct (corner_scan_nothing_above_threshold (L := Demo.lib)
              [0; 2] [0; 0] [0.5; 0.5] 3 2 0.5) as (Hwalk & _ & _).
  - cbn. lia.
  - cbn. lia.
  - intros [|[|idx]] x y Hidx Hx Hy; cbn in Hidx; try lia;
      injection Hx as <-; injection Hy as <-; vm_compute; reflexivity.
  - split; [exact Hwalk|]. vm_compute. reflexivity.
Defined.

Lemma corner_scan_repeat_inert_witness :
  walk Demo.bursty_signal Demo.bursty_noise 3 0 Demo.grid walk_init = Ok Demo.bursty_walk
  ∧ ∃ highs1,
      close_band Demo.grid (lows Demo.bursty_walk) (highs Demo.bursty_walk) = Ok highs1
      ∧ close_band Demo.grid (lows Demo.bursty_walk) highs1 = Ok highs1
      ∧ corner_scan Demo.grid Demo.bursty_signal Demo.bursty_noise 3 2 0.5
        = check_pairs 2 0.5 highs1 0 (lows Demo.bursty_walk) None.
Proof.
  assert (Hwalk : walk Demo.bursty_signal Demo.bursty_noise 3 0 Demo.grid walk_init
                  = Ok Demo.bursty_walk) by (vm_compute; reflexivity).
  split; [exact Hwalk|].
  destruct (corner_scan_repeat_inert _ _ _ 3 2 0.5 _ Hwalk) as (highs1 & H1 & _ & H2 & H3);
    [done|].
  exists highs1. split_and!; [exact H1|exact H2|exact H3].
Defined.

Lemma snr_removals_are_logged_witness :
  ∃ σ' new,
    snr Demo.world 3 2 0.5 20 = Ok σ'
    ∧ log σ' = log Demo.world ++ new
    ∧ length (traces Demo.world) = (length (traces σ') + length new)%nat.
Proof.
  assert (Hrun : returns (snr Demo.world 3 2 0.5 20)) by (vm_compute; eexists; reflexivity).
  destruct Hrun as [σ' Hrun].
  destruct (snr_removals_are_logged 3 2 0.5 20 Demo.world σ' Hrun) as (new & Hlog & Hlen & _).
  exists σ', new. split_and!; [exact Hrun|exact Hlog|exact Hlen].
Defined.



Lemma constant_twice_witness :
  ∃ σ', constant Demo.CONFIG Demo.world = Ok σ' ∧ constant Demo.CONFIG σ' = Ok σ'.
Proof.
  assert (Hrun : returns (constant Demo.CONFIG Demo.world))
    by (vm_compute; eexists; reflexivity).
  destruct Hrun as [σ' Hrun]. exists σ'. split; [exact Hrun|].
  exact (constant_twice Demo.CONFIG Demo.world σ' Hrun).
Defined.


Lemma nan_parameter_rejects_witness :
  is_nan nan = true
  ∧ corner_scan Demo.grid Demo.bursty_signal Demo.bursty_noise nan 2 0.5 = Ok None
  ∧ corner_scan Demo.grid Demo.bursty_signal Demo.bursty_noise 3 nan 0.5 = Ok None.
Proof.
  split_and!; [reflexivity| |].
  - apply nan_parameter_rejects; [cbn; lia..|]. left. reflexivity.
  - apply nan_parameter_rejects; [cbn; lia..|]. right. left. reflexivity.
Defined.
End MoreExamples.
